(** * log-pipeline: key routing, record transform and the deduplicating store

    A shallow embedding of the three pieces of the pipeline that carry logic:

    - [Lua]: the Fluent Bit filter [make_key] (fluent-bit/compose_key.lua),
      which derives the Kafka message key of a record;
    - [JSONEachRow], [src_kafka_app_logs] and [mv_app_logs_consume]: a
      message as the Kafka source table reads it, that table, and the
      materialized view that turns each consumed message into a row of the
      fact table;
    - [MergeTree] and [fact_app_log]: the table of
      clickhouse/init/001_schema.sql, i.e. its clauses
      [ENGINE = ReplacingMergeTree(dedup_token)], [PARTITION BY], [ORDER BY]
      and [TTL], read with the meaning ClickHouse gives them.  [ClickHouse]
      holds the column types and functions the two schemas use.

    The definitions come first; the properties follow from [Properties]
    on. *)

From Stdlib Require Import ZArith.
From Stdlib Require Ascii String.
Import (notations) Ascii.
From stdpp Require Import base tactics option list gmap strings pretty numbers sorting.

#[local] Set Warnings "-register-all".

Local Open Scope Z_scope.

(** ** The Lua filter *)

Module Lua.

(** Lua values as a Fluent Bit record can hold them.  [nil] is not a value
    that a table stores: a field that is [nil] is an absent field, so a
    lookup returns an [option].  Numbers are kept abstract; all the filter
    does with one is to render it when it is concatenated. *)
Inductive value {number : Type} : Type :=
| LBool (b : bool)
| LNumber (n : number)
| LString (s : string)
| LTable (fields : gmap string value).
Global Arguments value : clear implicits.

(** What a call of a filter function produces: the values it returns, or the
    error raised while it ran, with the operand that could not be
    concatenated.  [make_key] returns the table it was given, after having
    updated it in place; when it raises, the table has not been touched. *)
Inductive outcome {number : Type} : Type :=
| Return (code : Z) (ts : value number) (record : gmap string (value number))
| Raise (operand : value number).
Global Arguments outcome : clear implicits.

Section Filter.
Context {number : Type}.
(** [lua_number2str], the rendering used by [..] on a number operand. *)
Variable tostring : number → string.

Abbreviation value := (value number).
Abbreviation table := (gmap string value).

(** [a or b]: the first operand unless it is [nil] or [false]. *)
Definition lua_or (a : option value) (b : value) : value :=
  match a with
  | None => b
  | Some (LBool false) => b
  | Some v => v
  end.

(** The operand of [..] as a string: strings and numbers only. *)
Definition tostr (v : value) : option string :=
  match v with
  | LString s => Some s
  | LNumber n => Some (tostring n)
  | LBool _ | LTable _ => None
  end.

(** [a .. b]; "attempt to concatenate a ... value" on any other operand.
    The right operand is checked first, as the virtual machine does. *)
Definition concat (a b : value) : value + value :=
  match tostr b with
  | None => inr b
  | Some sb =>
      match tostr a with
      | None => inr a
      | Some sa => inl (LString (sa +:+ sb))
      end
  end.

(** [function make_key(tag, ts, record)].  The operator [..] associates to
    the right, so [":" .. app] is formed before [host] is prepended. *)
Definition make_key (tag ts : value) (record : table) : outcome number :=
  let host := lua_or (record !! "host") (LString "unknown-host") in
  let app := lua_or (record !! "app") (LString "unknown-app") in
  match concat (LString ":") app with
  | inr bad => Raise bad
  | inl tail =>
      match concat host tail with
      | inr bad => Raise bad
      | inl key => Return 1 ts (<["key" := key]> record)
      end
  end.

(** The routing rule in the words of the specification: a field that is
    absent or the empty string is replaced by its sentinel. *)
Definition spec_field (v : option value) (sentinel : string) : string :=
  match v with
  | Some (LString s) => if decide (s = "") then sentinel else s
  | _ => sentinel
  end.

Definition spec_route (record : table) : string :=
  spec_field (record !! "host") "unknown-host" +:+ ":" +:+
  spec_field (record !! "app") "unknown-app".

(** The routing claim in full: [make_key] always returns, with the key of the
    specification stored under ["key"]. *)
Definition route_as_specified : Prop :=
  ∀ (tag ts : value) (record : table),
    make_key tag ts record
    = Return 1 ts (<["key" := LString (spec_route record)]> record).

(** The text a field contributes to the key, as the code has it: the
    sentinel for a field that is [nil] or [false], the field's own text for
    a string (the empty one included) or a number, and nothing for a value
    that cannot be concatenated. *)
Definition field_text (v : option value) (sentinel : string) : option string :=
  match v with
  | None | Some (LBool false) => Some sentinel
  | Some (LString s) => Some s
  | Some (LNumber n) => Some (tostring n)
  | Some (LBool true) | Some (LTable _) => None
  end.

End Filter.

End Lua.

(** ** ClickHouse: column types and the functions the schema calls *)

Module ClickHouse.

(** [DateTime]: seconds since the epoch.  [DateTime64(3)]: milliseconds since
    the epoch.  [Date]: days since the epoch. *)
Definition DateTime := Z.
Definition DateTime64 := Z.
Definition Date := Z.

(** Storing a [DateTime] into a [DateTime64(3)] column. *)
Definition toDateTime64 (t : DateTime) : DateTime64 := t * 1000.

(** The wall-clock second a [DateTime64(3)] value falls in. *)
Definition toDateTime (t : DateTime64) : DateTime := t `div` 1000.

(** ['Asia/Shanghai'] is eight hours ahead of UTC.  It has been so without
    interruption since the end of the summer time of 1991; the properties
    that depend on the calendar are stated for timestamps from 1992 on. *)
Definition shanghai_offset : Z := 8 * 3600.

(** [toDate(t)] for a [DateTime64(3, 'Asia/Shanghai')]: the day the wall
    clock shows, as a day number.  A [Date] column holds the sixteen-bit day
    numbers, 1970-01-01 to 2149-06-06; the number computed here is the one
    stored for every timestamp whose day lies in that range. *)
Definition toDate (t : DateTime64) : Date :=
  (toDateTime t + shanghai_offset) `div` 86400.

(** The proleptic Gregorian calendar date of a day number, as
    [(year, month, day)]. *)
Definition civil_from_days (days : Z) : Z * Z * Z :=
  let z := days + 719468 in
  let era := z `div` 146097 in
  let doe := z - era * 146097 in
  let yoe := (doe - doe `div` 1460 + doe `div` 36524 - doe `div` 146096) `div` 365 in
  let doy := doe - (365 * yoe + yoe `div` 4 - yoe `div` 100) in
  let mp := (5 * doy + 2) `div` 153 in
  let d := doy - (153 * mp + 2) `div` 5 + 1 in
  let m := if decide (mp < 10) then mp + 3 else mp - 9 in
  let y := yoe + era * 400 + (if decide (m ≤ 2) then 1 else 0) in
  (y, m, d).

(** [toYYYYMMDD(t)]: the calendar day of [t] as the number [YYYYMMDD]. *)
Definition toYYYYMMDD (t : DateTime64) : Z :=
  let '(y, m, d) := civil_from_days (toDate t) in
  y * 10000 + m * 100 + d.

(** [toString] of a [UInt64]: its decimal digits. *)
Definition toString (n : N) : string := pretty n.

(** [x IS NOT NULL].  Only a [Nullable] column can hold NULL: on any other
    column type the test is constantly true. *)
Class IsNotNull (A : Type) := isNotNull : A → bool.
Global Instance String_isNotNull : IsNotNull string := λ _, true.
Global Instance Int_isNotNull : IsNotNull Z := λ _, true.
Global Instance UInt_isNotNull : IsNotNull N := λ _, true.
Global Instance Nullable_isNotNull {A} : IsNotNull (option A) :=
  λ x, bool_decide (is_Some x).

(** [coalesce(x, y)] with [x] nullable and [y] not. *)
Definition coalesce {A} (x : option A) (y : A) : A := default y x.

(** Reading a decimal integer: an optional sign, then one or more digits and
    nothing else. *)
Definition digit_value (c : Ascii.ascii) : option Z :=
  let n := Z.of_N (Ascii.N_of_ascii c) in
  if decide (48 ≤ n ≤ 57) then Some (n - 48) else None.

Fixpoint readDigits (acc : Z) (s : string) : option Z :=
  match s with
  | EmptyString => Some acc
  | String c s' =>
      match digit_value c with
      | Some d => readDigits (10 * acc + d) s'
      | None => None
      end
  end.

Definition readUnsigned (s : string) : option Z :=
  match s with
  | EmptyString => None
  | _ => readDigits 0 s
  end.

Definition readIntText (s : string) : option Z :=
  match s with
  | String c s' =>
      if decide (c = "-"%char) then Z.opp <$> readUnsigned s'
      else if decide (c = "+"%char) then readUnsigned s'
      else readUnsigned s
  | EmptyString => None
  end.

(** [toInt32OrNull]: the text must be an integer that fits in 32 bits. *)
Definition toInt32OrNull (s : string) : option Z :=
  n ← readIntText s;
  if decide (- 2 ^ 31 ≤ n < 2 ^ 31) then Some n else None.

(** [toInt32OrZero]: zero wherever [toInt32OrNull] has no value. *)
Definition toInt32OrZero (s : string) : Z := default 0 (toInt32OrNull s).

(** The content of a [JSON] column. *)
Inductive JSON : Type :=
  | JNull
  | JBool (b : bool)
  | JNumber (literal : string)
  | JString (s : string)
  | JArray (items : list JSON)
  | JObject (members : list (string * JSON)).

(** The empty structure. *)
Definition emptyJSON : JSON := JObject [].

(** Modelled from the spec: [tryParseJson] is called by the materialized view
    but defined nowhere in the sources.  The specification gives its
    contract: the field is parsed as a structured blob and, on failure, the
    empty structure is stored.  The parser proper is a parameter. *)
Definition tryParseJson (parseJson : string → option JSON) (s : string) : JSON :=
  default emptyJSON (parseJson s).

End ClickHouse.

(** ** The ReplacingMergeTree engine *)

Module MergeTree.

(** A table of the MergeTree family stores its rows in parts.  A part belongs
    to one partition and is sorted by the sorting key.  In the background
    the parts of a partition are merged; a [ReplacingMergeTree(ver)] merge
    leaves, of the rows with equal sorting key, the one with the greatest
    [ver], and the one written last among those.  The pass modelled here
    is a complete one: all parts of every partition are merged. *)

(** A three-way comparison that is a total order. *)
Class Ordered {A : Type} (cmp : A → A → comparison) : Prop := {
  cmp_eq a b : cmp a b = Eq ↔ a = b;
  cmp_antisym a b : cmp b a = CompOpp (cmp a b);
  cmp_trans a b c : cmp a b = Lt → cmp b c = Lt → cmp a c = Lt
}.

(** Tuples are compared component by component, left to right. *)
Definition lex {A B : Type} (cmpA : A → A → comparison)
    (cmpB : B → B → comparison) (x y : A * B) : comparison :=
  match cmpA x.1 y.1 with
  | Eq => cmpB x.2 y.2
  | c => c
  end.

Section Engine.
Context {Row Key Ver Part : Type} `{EqDecision Part}.
(** [ORDER BY], with the order of its tuples. *)
Variable sorting_key : Row → Key.
Variable key_cmp : Key → Key → comparison.
(** The [ver] argument of [ReplacingMergeTree(ver)], with its order. *)
Variable version : Row → Ver.
Variable ver_cmp : Ver → Ver → comparison.
(** [PARTITION BY]. *)
Variable partition_by : Row → Part.
(** [TTL ... DELETE]: whether the row is expired at a given time; constantly
    [false] for a table without a TTL clause. *)
Variable expired : Z → Row → bool.

(** Of two rows with the same sorting key the engine keeps the one with the
    greater version and, when the versions are equal, the one written
    last.  [old] precedes [new] in write order. *)
Definition replace (old new : Row) : Row :=
  match ver_cmp (version new) (version old) with
  | Lt => old
  | _ => new
  end.

(** Adding one row to a part, which is sorted by sorting key and holds one
    row for each key. *)
Fixpoint merge_insert (r : Row) (part : list Row) : list Row :=
  match part with
  | [] => [r]
  | h :: t =>
      match key_cmp (sorting_key r) (sorting_key h) with
      | Lt => r :: h :: t
      | Eq => replace h r :: t
      | Gt => h :: merge_insert r t
      end
  end.

(** Merging the rows of one partition, taken in write order, into one part. *)
Definition replacing_merge (rows : list Row) : list Row :=
  foldl (λ part r, merge_insert r part) [] rows.

(** A merge drops the rows that are expired. *)
Definition ttl_delete (now : Z) (rows : list Row) : list Row :=
  filter (λ r, expired now r = false) rows.

Definition partition_ids (rows : list Row) : list Part :=
  remove_dups (partition_by <$> rows).

Definition partition_rows (p : Part) (rows : list Row) : list Row :=
  filter (λ r, partition_by r = p) rows.

(** One background pass over the table at time [now]: every partition is
    merged into a single part, and expired rows are dropped from it.  The
    table is the list of its rows in write order. *)
Definition merge_partition (now : Z) (rows : list Row) (p : Part) : list Row :=
  ttl_delete now (replacing_merge (partition_rows p rows)).

Definition reconcile (now : Z) (rows : list Row) : list Row :=
  partition_ids rows ≫= merge_partition now rows.

(** The row of a part that has a given sorting key. *)
Definition same_key (k : Key) (r : Row) : bool :=
  match key_cmp (sorting_key r) k with
  | Eq => true
  | _ => false
  end.

Fixpoint find_key (k : Key) (part : list Row) : option Row :=
  match part with
  | [] => None
  | h :: t => if same_key k h then Some h else find_key k t
  end.

(** The groups a pass collapses: the rows of one partition that have the
    same sorting key. *)
Definition in_group (p : Part) (k : Key) (r : Row) : bool :=
  bool_decide (partition_by r = p) && same_key k r.

(** The row that stands for a group [g] once [rows] have been merged after
    [sel]: a fold of [replace] over the rows of the group, in write order. *)
Fixpoint survivor (g : Row → bool) (sel : option Row) (rows : list Row)
    : option Row :=
  match rows with
  | [] => sel
  | r :: rest =>
      survivor g
        (if g r then Some (from_option (λ old, replace old r) r sel) else sel)
        rest
  end.

(** Orders on rows read off their keys and versions. *)
Definition key_lt (a b : Row) : Prop :=
  key_cmp (sorting_key a) (sorting_key b) = Lt.
Definition ver_le (a b : Row) : Prop :=
  ver_cmp (version a) (version b) ≠ Gt.
Definition ver_lt (a b : Row) : Prop :=
  ver_cmp (version a) (version b) = Lt.

End Engine.

End MergeTree.

(** ** Messages *)

Module JSONEachRow.

(** The value of a Kafka message in [JSONEachRow] format, as far as the
    source table reads it: an object of named fields.  For each column the
    table declares, the object has a field of that name holding a value of
    the column's type (a text for [String], a number for [UInt64], a time
    for [DateTime]), or it has none, or [null]; fields of other names are
    skipped. *)
Record object : Type := {
  ts : option string;
  level : option string;
  env : option string;
  app : option string;
  host : option string;
  code : option string;
  message : option string;
  attrs : option string;
  _topic : option string;
  _offset : option N;
  _partition : option N;
  _timestamp : option ClickHouse.DateTime
}.

End JSONEachRow.

(** ** The Kafka source table *)

Module src_kafka_app_logs.

(** The columns of [logs.src_kafka_app_logs], as declared: eight of type
    [String] and four that bear the names of the virtual columns of the
    Kafka engine. *)
Record row : Type := {
  ts : string;
  level : string;
  env : string;
  app : string;
  host : string;
  code : string;
  message : string;
  attrs : string;
  _topic : string;
  _offset : N;
  _partition : N;
  _timestamp : ClickHouse.DateTime
}.

(** [kafka_format = 'JSONEachRow']: every declared column is read from the
    field of its name in the message value, and a column whose field is
    missing gets the default of its type: the empty string, zero, the
    epoch.  That holds of [_topic], [_offset], [_partition] and [_timestamp]
    too: a column that the table declares hides the virtual column of the
    same name, so the position the message was consumed from ([topic],
    [partition], [offset]) and its Kafka [timestamp] are not read. *)
Definition read_message (payload : JSONEachRow.object) (topic : string)
    (partition offset : N) (timestamp : ClickHouse.DateTime) : row :=
  {| ts := default "" (JSONEachRow.ts payload);
     level := default "" (JSONEachRow.level payload);
     env := default "" (JSONEachRow.env payload);
     app := default "" (JSONEachRow.app payload);
     host := default "" (JSONEachRow.host payload);
     code := default "" (JSONEachRow.code payload);
     message := default "" (JSONEachRow.message payload);
     attrs := default "" (JSONEachRow.attrs payload);
     _topic := default "" (JSONEachRow._topic payload);
     _offset := default 0%N (JSONEachRow._offset payload);
     _partition := default 0%N (JSONEachRow._partition payload);
     _timestamp := default 0 (JSONEachRow._timestamp payload) |}.

End src_kafka_app_logs.

(** ** The fact table *)

Module fact_app_log.
Import ClickHouse.

(** The stored columns of [logs.fact_app_log]. *)
Record row : Type := {
  ts : DateTime64;
  level : string;
  env : string;
  app : string;
  host : string;
  code : Z;
  message : string;
  attrs : JSON;
  dedup_token : string;
  ingest_time : DateTime64
}.

(** [date Date MATERIALIZED toDate(ts)]: never written, always computed. *)
Definition date (r : row) : Date := toDate (ts r).

(** [ENGINE = ReplacingMergeTree(dedup_token)]: the argument of the engine is
    its version column.  The engine is documented for version columns of an
    integer or date type; the schema passes a [String] column, which is
    read here with the order of strings, byte by byte. *)
Definition version (r : row) : string := dedup_token r.
Definition ver_cmp : string → string → comparison := String.compare.

(** [PARTITION BY toYYYYMMDD(ts)] *)
Definition partition_by (r : row) : Z := toYYYYMMDD (ts r).

(** [ORDER BY (date, app, host, ts)] *)
Definition sorting_key (r : row) : Z * string * string * Z :=
  (date r, app r, host r, ts r).
Definition key_cmp : Z * string * string * Z → Z * string * string * Z → comparison :=
  MergeTree.lex (MergeTree.lex (MergeTree.lex Z.compare String.compare) String.compare)
    Z.compare.

(** [TTL ts + INTERVAL 14 DAY DELETE]: the row is expired once the clock, in
    seconds, has reached the value of the TTL expression. *)
Definition ttl (r : row) : DateTime := toDateTime (ts r + 14 * 86400 * 1000).
Definition expired (now : DateTime) (r : row) : bool := bool_decide (ttl r ≤ now).

(** A background pass over the table. *)
Definition reconcile (now : DateTime) (table : list row) : list row :=
  MergeTree.reconcile sorting_key key_cmp version ver_cmp partition_by expired
    now table.

(** [INSERT]: rows are appended, nothing is looked up. *)
Definition insert (block : list row) (table : list row) : list row :=
  table ++ block.


(** The row with another [ingest_time], all else the same. *)
Definition with_ingest_time (f : row → DateTime64) (r : row) : row :=
  {| ts := ts r; level := level r; env := env r; app := app r; host := host r;
     code := code r; message := message r; attrs := attrs r;
     dedup_token := dedup_token r; ingest_time := f r |}.

End fact_app_log.

(** ** The materialized view *)

Section View.
Import ClickHouse.
(** [parseDateTimeBestEffortOrNull] and the JSON parser behind
    [tryParseJson] are functions of the server. *)
Variable parseDateTimeBestEffortOrNull : string → option DateTime.
Variable parseJson : string → option JSON.

(** The [SELECT] list of [logs.mv_app_logs_consume], each column stored with
    the type the target table gives it.  [now64] is the clock of the server
    when the block is processed. *)
Definition mv_select (now64 : DateTime64) (r : src_kafka_app_logs.row)
    : fact_app_log.row :=
  {| fact_app_log.ts :=
       toDateTime64
         (coalesce (parseDateTimeBestEffortOrNull (src_kafka_app_logs.ts r))
            (src_kafka_app_logs._timestamp r));
     fact_app_log.level := src_kafka_app_logs.level r;
     fact_app_log.env := src_kafka_app_logs.env r;
     fact_app_log.app := src_kafka_app_logs.app r;
     fact_app_log.host := src_kafka_app_logs.host r;
     fact_app_log.code := toInt32OrZero (src_kafka_app_logs.code r);
     fact_app_log.message := src_kafka_app_logs.message r;
     fact_app_log.attrs := tryParseJson parseJson (src_kafka_app_logs.attrs r);
     fact_app_log.dedup_token :=
       toString (src_kafka_app_logs._partition r) +:+ "-" +:+
       toString (src_kafka_app_logs._offset r);
     fact_app_log.ingest_time := now64 |}.

(** [WHERE ts IS NOT NULL OR _timestamp IS NOT NULL].  In the query [ts]
    names the first column of the [SELECT] list. *)
Definition mv_where (r : src_kafka_app_logs.row) : bool :=
  isNotNull
    (coalesce (parseDateTimeBestEffortOrNull (src_kafka_app_logs.ts r))
       (src_kafka_app_logs._timestamp r))
  || isNotNull (src_kafka_app_logs._timestamp r).

(** The view applied to a block of consumed messages. *)
Definition mv_app_logs_consume (now64 : DateTime64)
    (block : list src_kafka_app_logs.row) : list fact_app_log.row :=
  mv_select now64 <$> filter (λ r, mv_where r = true) block.

(** [transform(rawFields, position)]: one message, read and passed through
    the view. *)
Definition transform (now64 : DateTime64) (payload : JSONEachRow.object)
    (topic : string) (partition offset : N) (timestamp : DateTime)
    : list fact_app_log.row :=
  mv_app_logs_consume now64
    [src_kafka_app_logs.read_message payload topic partition offset timestamp].

End View.

(** ** Statements of the specification, and sample data *)

Section Statements.
Import ClickHouse.

(** Write order agrees with [ingest_time]: no row was written with an earlier
    [ingest_time] than a row written before it. *)
Definition ingest_ordered (table : list fact_app_log.row) : Prop :=
  StronglySorted
    (λ a b, fact_app_log.ingest_time a ≤ fact_app_log.ingest_time b) table.

(** The rows a pass collapses into the row [r] are the resident rows with
    the ordering key of [r]; the copies of [r] among them are those that
    carry its dedup token as well. *)
Definition collapsed_into (r y : fact_app_log.row) : Prop :=
  fact_app_log.sorting_key y = fact_app_log.sorting_key r.
Definition copy_of (r y : fact_app_log.row) : Prop :=
  fact_app_log.sorting_key y = fact_app_log.sorting_key r ∧
  fact_app_log.dedup_token y = fact_app_log.dedup_token r.

(** "The surviving row is the one with the latest [ingest_time]": a row that
    outlives a pass has an [ingest_time] no earlier than that of any
    resident row of its group.  The statement is read for a class of tables
    and a notion of group; as the specification has it, for every table and
    for the rows the pass collapses. *)
Definition latest_ingest_time_wins (tables : list fact_app_log.row → Prop)
    (group : fact_app_log.row → fact_app_log.row → Prop) : Prop :=
  ∀ now table r y,
    tables table → r ∈ fact_app_log.reconcile now table → y ∈ table →
    group r y → fact_app_log.ingest_time y ≤ fact_app_log.ingest_time r.

(** "Rows newer than the horizon are never deleted by retention": a resident
    row that is less than fourteen days old at the instant of the pass is in
    the table after it, or the row that took its place under its ordering
    key is. *)
Definition newer_rows_outlive_retention : Prop :=
  ∀ (instant : DateTime64) table r,
    r ∈ table → instant < fact_app_log.ts r + 14 * 86400 * 1000 →
    ∃ y, y ∈ fact_app_log.reconcile (toDateTime instant) table ∧
      fact_app_log.sorting_key y = fact_app_log.sorting_key r.



(** "The dedup token is the decimal rendering of the partition, a hyphen and
    the decimal rendering of the offset of the transport position." *)
Definition token_of_position
    (parseDateTimeBestEffortOrNull : string → option DateTime)
    (parseJson : string → option JSON) : Prop :=
  ∀ now64 payload topic partition offset timestamp,
    fact_app_log.dedup_token <$>
      transform parseDateTimeBestEffortOrNull parseJson now64 payload topic
        partition offset timestamp
    = [pretty partition +:+ "-" +:+ pretty offset].

(** "When the payload's own timestamp does not parse, the row's timestamp is
    the receipt timestamp of the transport message." *)
Definition falls_back_to_receipt_timestamp
    (parseDateTimeBestEffortOrNull : string → option DateTime)
    (parseJson : string → option JSON) : Prop :=
  ∀ now64 payload topic partition offset timestamp,
    parseDateTimeBestEffortOrNull (default "" (JSONEachRow.ts payload)) = None →
    fact_app_log.ts <$>
      transform parseDateTimeBestEffortOrNull parseJson now64 payload topic
        partition offset timestamp
    = [toDateTime64 timestamp].

(** A row of service [a1] on host [h1]. *)
Definition example_row (t : DateTime64) (token : string) (ingest : DateTime64)
    : fact_app_log.row :=
  {| fact_app_log.ts := t; fact_app_log.level := "INFO";
     fact_app_log.env := "prod"; fact_app_log.app := "a1";
     fact_app_log.host := "h1"; fact_app_log.code := 200;
     fact_app_log.message := "started"; fact_app_log.attrs := emptyJSON;
     fact_app_log.dedup_token := token; fact_app_log.ingest_time := ingest |}.

(** 2024-01-01 00:00:00 UTC, in seconds. *)
Definition new_year : DateTime := 1704067200.

(** A date parser that reads the timestamp of the scenario and nothing else,
    and a JSON parser that reads the empty object and nothing else. *)
Definition example_parseDateTime (s : string) : option DateTime :=
  if decide (s = "2024-01-01T00:00:00Z") then Some new_year else None.
Definition example_parseJson (s : string) : option JSON :=
  if decide (s = "{}") then Some (JObject []) else None.

(** The record of the scenario:
    [{host: "h1", app: "a1", ts: "2024-01-01T00:00:00Z", code: "200"}]. *)
Definition example_payload : JSONEachRow.object :=
  {| JSONEachRow.ts := Some "2024-01-01T00:00:00Z";
     JSONEachRow.level := None; JSONEachRow.env := None;
     JSONEachRow.app := Some "a1"; JSONEachRow.host := Some "h1";
     JSONEachRow.code := Some "200"; JSONEachRow.message := None;
     JSONEachRow.attrs := None; JSONEachRow._topic := None;
     JSONEachRow._offset := None; JSONEachRow._partition := None;
     JSONEachRow._timestamp := None |}.

(** The record of the scenario with a [ts] field that is no date. *)
Definition example_payload_undated : JSONEachRow.object :=
  {| JSONEachRow.ts := Some "yesterday";
     JSONEachRow.level := None; JSONEachRow.env := None;
     JSONEachRow.app := Some "a1"; JSONEachRow.host := Some "h1";
     JSONEachRow.code := Some "200"; JSONEachRow.message := None;
     JSONEachRow.attrs := None; JSONEachRow._topic := None;
     JSONEachRow._offset := None; JSONEachRow._partition := None;
     JSONEachRow._timestamp := None |}.



End Statements.

(** ** Further notions used in the properties *)

(** Whether a character occurs in a string. *)
Fixpoint contains (c : Ascii.ascii) (s : string) : bool :=
  match s with
  | EmptyString => false
  | String d s' => bool_decide (d = c) || contains c s'
  end.

(** [l2] replays [l1]: every row of [l1] has a row in [l2] in the same
    partition, with the same sorting key and a version that is not less. *)
Definition replays {Row Key Ver Part : Type} (sorting_key : Row → Key)
    (version : Row → Ver) (ver_cmp : Ver → Ver → comparison)
    (partition_by : Row → Part) (l1 l2 : list Row) : Prop :=
  ∀ x, x ∈ l1 → ∃ y, y ∈ l2 ∧ partition_by y = partition_by x ∧
    sorting_key y = sorting_key x ∧ MergeTree.ver_le version ver_cmp x y.

(** The timestamps from 1992-01-01 00:00:00 to 2149-06-06 23:59:59.999,
    Shanghai time: the zone is at eight hours throughout, and the day is one
    that a [Date] column holds. *)
Definition plain_days (t : ClickHouse.DateTime64) : Prop :=
  694195200000 ≤ t < 5662281600000.

(** The day number of a calendar date: the inverse of
    [ClickHouse.civil_from_days]. *)
Definition days_from_civil (y m d : Z) : Z :=
  let y' := if decide (m ≤ 2) then y - 1 else y in
  let era := y' `div` 400 in
  let yoe := y' - era * 400 in
  let mp := if decide (2 < m) then m - 3 else m + 9 in
  let doy := (153 * mp + 2) `div` 5 + d - 1 in
  let doe := yoe * 365 + yoe `div` 4 - yoe `div` 100 + doy in
  era * 146097 + doe - 719468.

(** The field values on which [..] raises: [true] and tables.  ([false] and
    an absent field have been replaced by the sentinel before.) *)
Definition unconcatenable {number : Type} (v : option (Lua.value number)) : Prop :=
  v = Some (Lua.LBool true) ∨ ∃ t, v = Some (Lua.LTable t).

(** ** The admin server (go-pipeline-server/main.go) *)

Module main_go.

Definition byte := Byte.byte.

(** A Go [error] value, by its message; [nil] is [None]. *)
Definition error := string.
Definition EOF : error := "EOF".

(** [int] on the 64-bit targets the images are built for: sums wrap around. *)
Definition wrap_int (z : Z) : Z := (z + 2 ^ 63) `mod` 2 ^ 64 - 2 ^ 63.

(** [copy(dst, src)]: as many bytes as fit go to the front of [dst]; the count
    is returned. *)
Definition copy (dst src : list byte) : nat * list byte :=
  let n := min (length dst) (length src) in
  (n, take n src ++ drop n dst).

(** [type reader struct{ b []byte }] *)
Record reader : Type := { b : list byte }.

(** [func bytesReader(b []byte) *reader] *)
Definition bytesReader (bs : list byte) : reader := {| b := bs |}.

(** [func (r *reader) Read(p []byte) (int, error)]: the reader and the buffer
    after the call, and the values returned. *)
Definition Read (r : reader) (p : list byte)
    : reader * list byte * (nat * option error) :=
  if decide (length (b r) = 0%nat) then (r, p, (0%nat, Some EOF))
  else
    let '(n, p') := copy p (b r) in
    ({| b := drop n (b r) |}, p', (n, None)).

(** A consumer of the reader: it calls [Read] with fresh buffers of the given
    sizes, keeps what each call delivered ([p[:n]]), and stops at the first
    error. *)
Fixpoint read_chunks (sizes : list nat) (r : reader) : list (list byte) * reader :=
  match sizes with
  | [] => ([], r)
  | size :: sizes' =>
      match Read r (replicate size Byte.x00) with
      | (r', p', (n, None)) =>
          let '(chunks, r'') := read_chunks sizes' r' in
          (take n p' :: chunks, r'')
      | (r', _, (_, Some _)) => ([], r')
      end
  end.

(** [http.ResponseWriter]: [w.Header().Set(k, v)], [w.WriteHeader(code)] and
    [w.Write(b)], each with the writer after the call. *)
Class ResponseWriter (W : Type) : Type := {
  Header : W → gmap string (list string);
  HeaderSet : string → string → W → W;
  WriteHeader : Z → W → W;
  Write : list byte → W → W * (Z * option error)
}.

(** [type statusRecorder struct { http.ResponseWriter; status int; bytes int }] *)
Record statusRecorder (W : Type) : Type := {
  underlying : W;
  status : Z;
  bytes : Z
}.
Global Arguments underlying {W} _.
Global Arguments status {W} _.
Global Arguments bytes {W} _.

Section Recorder.
Context {W : Type} `{!ResponseWriter W}.

(** [func (w *statusRecorder) WriteHeader(code int)] *)
Definition statusRecorder_WriteHeader (code : Z) (w : statusRecorder W)
    : statusRecorder W :=
  {| underlying := WriteHeader code (underlying w);
     status := code;
     bytes := bytes w |}.

(** [func (w *statusRecorder) Write(b []byte) (int, error)] *)
Definition statusRecorder_Write (bs : list byte) (w : statusRecorder W)
    : statusRecorder W * (Z * option error) :=
  let status' := if decide (status w = 0) then 200 else status w in
  let '(u, (n, err)) := Write bs (underlying w) in
  ({| underlying := u; status := status'; bytes := wrap_int (bytes w + n) |},
   (n, err)).

(** The recorder is a [ResponseWriter] itself; [Header] is the promoted method
    of the writer it embeds. *)
#[global] Instance statusRecorder_ResponseWriter : ResponseWriter (statusRecorder W) := {
  Header w := Header (underlying w);
  HeaderSet k v w :=
    {| underlying := HeaderSet k v (underlying w);
       status := status w; bytes := bytes w |};
  WriteHeader := statusRecorder_WriteHeader;
  Write := statusRecorder_Write
}.

(** [sr := &statusRecorder{ResponseWriter: w}], as [requestLogger] makes it. *)
Definition newStatusRecorder (w : W) : statusRecorder W :=
  {| underlying := w; status := 0; bytes := 0 |}.

End Recorder.

(** What a handler does to the writer it is given: a sequence of calls. *)
Inductive call : Type :=
  | CallHeaderSet (k v : string)
  | CallWriteHeader (code : Z)
  | CallWrite (bs : list byte).

Definition do_call {W} `{!ResponseWriter W} (c : call) (w : W) : W :=
  match c with
  | CallHeaderSet k v => HeaderSet k v w
  | CallWriteHeader code => WriteHeader code w
  | CallWrite bs => (Write bs w).1
  end.

Definition do_calls {W} `{!ResponseWriter W} (calls : list call) (w : W) : W :=
  foldl (λ w c, do_call c w) w calls.

(** The byte counts the writer returns for the [Write] calls of a handler. *)
Fixpoint written {W} `{!ResponseWriter W} (calls : list call) (w : W) : list Z :=
  match calls with
  | [] => []
  | c :: calls' =>
      match c with
      | CallWrite bs => (Write bs w).2.1 :: written calls' (do_call c w)
      | _ => written calls' (do_call c w)
      end
  end.

Definition is_WriteHeader (c : call) : bool :=
  match c with CallWriteHeader _ => true | _ => false end.
Definition is_Write (c : call) : bool :=
  match c with CallWrite _ => true | _ => false end.

(** The bodies a handler writes and the status codes it sets, in order. *)
Definition payloads (calls : list call) : list (list byte) :=
  omap (λ c, match c with CallWrite bs => Some bs | _ => None end) calls.
Definition codes (calls : list call) : list Z :=
  omap (λ c, match c with CallWriteHeader code => Some code | _ => None end) calls.

(** [type captureWriter struct { hdr http.Header; status int; statusText
    string; body string; err string }] *)
Record captureWriter : Type := {
  hdr : gmap string (list string);
  cw_status : Z;
  statusText : string;
  body : list byte;
  err : string
}.

Section Capture.
(** [http.StatusText] *)
Variable StatusText : Z → string.

#[local] Instance captureWriter_ResponseWriter : ResponseWriter captureWriter := {
  Header c := hdr c;
  HeaderSet k v c :=
    {| hdr := <[k := [v]]> (hdr c); cw_status := cw_status c;
       statusText := statusText c; body := body c; err := err c |};
  WriteHeader statusCode c :=
    {| hdr := hdr c; cw_status := statusCode;
       statusText := StatusText statusCode; body := body c; err := err c |};
  Write bs c :=
    ({| hdr := hdr c; cw_status := cw_status c; statusText := statusText c;
        body := body c ++ bs; err := err c |},
     (Z.of_nat (length bs), None))
}.
End Capture.

(** The parts of [*http.Request] that [clientIP] reads. *)
Record Request : Type := {
  RequestHeader : gmap string (list string);
  RemoteAddr : string
}.

(** [Header.Get]: the first value of the key, or the empty string. *)
Definition Get (h : gmap string (list string)) (key : string) : string :=
  match h !! key with
  | Some (v :: _) => v
  | _ => ""
  end.

(** [strings.Split(s, sep)] for a separator of one byte. *)
Fixpoint Split (s : string) (sep : Ascii.ascii) : list string :=
  match s with
  | EmptyString => [""]
  | String c s' =>
      if decide (c = sep) then "" :: Split s' sep
      else
        match Split s' sep with
        | part :: parts => String c part :: parts
        | [] => [String c ""]
        end
  end.

(** [strings.LastIndex(s, sep)] for a separator of one byte; [None] is -1. *)
Fixpoint LastIndex (s : string) (sep : Ascii.ascii) : option nat :=
  match s with
  | EmptyString => None
  | String c s' =>
      match LastIndex s' sep with
      | Some i => Some (S i)
      | None => if decide (c = sep) then Some 0%nat else None
      end
  end.

(** [s[:i]] *)
Fixpoint slice_to (s : string) (i : nat) : string :=
  match i, s with
  | S i', String c s' => String c (slice_to s' i')
  | _, _ => ""
  end.

Section ClientIP.
(** [strings.TrimSpace] *)
Variable TrimSpace : string → string.

(** [func clientIP(r *http.Request) string] *)
Definition clientIP (r : Request) : string :=
  let xff := Get (RequestHeader r) "X-Forwarded-For" in
  if decide (xff ≠ "") then
    let parts := Split xff "," in
    TrimSpace (default "" (head parts))
  else
    let host := RemoteAddr r in
    match LastIndex host ":" with
    | Some i => slice_to host i
    | None => host
    end.
End ClientIP.

End main_go.

(** A capture writer to try handlers on, with the texts of a few status
    codes. *)
Definition example_StatusText (code : Z) : string :=
  if decide (code = 200) then "OK"
  else if decide (code = 204) then "No Content"
  else if decide (code = 500) then "Internal Server Error"
  else "".
#[global] Instance example_ResponseWriter : main_go.ResponseWriter main_go.captureWriter :=
  main_go.captureWriter_ResponseWriter example_StatusText.
Definition example_captureWriter : main_go.captureWriter :=
  {| main_go.hdr := ∅; main_go.cw_status := 0; main_go.statusText := "";
     main_go.body := []; main_go.err := "" |}.

(** ** The admin page (log-adm/src) *)

Module log_adm.

(** The text without the slashes it ends in: what
    [.replace(/\/+$/, "")] leaves. *)
Fixpoint strip_trailing_slashes (s : string) : string :=
  match s with
  | EmptyString => ""
  | String c s' =>
      match strip_trailing_slashes s' with
      | EmptyString => if decide (c = "/"%char) then "" else String c ""
      | rest => String c rest
      end
  end.

(** [resolveUrl(base, path)]; a [base] that is [undefined], [null] or empty
    counts as the empty string. *)
Definition resolveUrl (base : option string) (path : string) : string :=
  strip_trailing_slashes (default "" base) +:+ path.

(** [const MAX_LOGS = 300] *)
Definition MAX_LOGS : nat := 300.

(** [prev => [entry, ...prev].slice(0, MAX_LOGS)], the update [req] applies to
    the log of the page. *)
Definition push_log {A} (entry : A) (prev : list A) : list A :=
  take MAX_LOGS (entry :: prev).

End log_adm.

(** * Properties *)

(** ** The Lua filter *)

Section LuaFacts.
Import Lua.
Context {number : Type} (tostring : number → string).

Abbreviation make_key := (make_key tostring).
Abbreviation field_text := (field_text tostring).
Abbreviation tostr := (tostr tostring).
Abbreviation concat := (concat tostring).

Lemma tostr_lua_or v sentinel :
  tostr (lua_or v (LString sentinel)) = field_text v sentinel.
Proof. destruct v as [[[]| | |]|]; reflexivity. Qed.

Lemma concat_Some a b sa sb :
  tostr a = Some sa → tostr b = Some sb → concat a b = inl (LString (sa +:+ sb)).
Proof. unfold concat. intros -> ->. reflexivity. Qed.

Lemma concat_inl a b v :
  concat a b = inl v →
  ∃ sa sb, tostr a = Some sa ∧ tostr b = Some sb ∧ v = LString (sa +:+ sb).
Proof.
  unfold concat. destruct (tostr b) as [sb|]; [|discriminate].
  destruct (tostr a) as [sa|]; [|discriminate].
  intros [= <-]. eauto.
Qed.

(** [make_key] returns exactly when both fields can be concatenated, and
    then the key is made of their texts. *)
Lemma make_key_returns tag ts (record : gmap string (value number)) h a :
  field_text (record !! "host") "unknown-host" = Some h →
  field_text (record !! "app") "unknown-app" = Some a →
  make_key tag ts record
  = Return 1 ts (<["key" := LString (h +:+ ":" +:+ a)]> record).
Proof.
  intros Hh Ha. unfold make_key.
  rewrite (concat_Some (LString ":") _ ":" a); [|done|by rewrite tostr_lua_or].
  rewrite (concat_Some _ _ h (":" +:+ a)); [done|by rewrite tostr_lua_or|done].
Qed.

Lemma make_key_inv tag ts (record : gmap string (value number)) code ts' record' :
  make_key tag ts record = Return code ts' record' →
  ∃ h a,
    field_text (record !! "host") "unknown-host" = Some h ∧
    field_text (record !! "app") "unknown-app" = Some a ∧
    code = 1 ∧ ts' = ts ∧
    record' = <["key" := LString (h +:+ ":" +:+ a)]> record.
Proof.
  unfold make_key.
  destruct (concat (LString ":") _) as [tail|] eqn:Ht; [|discriminate].
  destruct (concat _ tail) as [key|] eqn:Hk; [|discriminate].
  intros [= <- <- <-].
  apply concat_inl in Ht as (s1 & a & Hs1 & Ha & ->). injection Hs1 as <-.
  apply concat_inl in Hk as (h & s2 & Hh & Hs2 & ->). injection Hs2 as <-.
  rewrite tostr_lua_or in Ha, Hh. eauto 10.
Qed.

Lemma make_key_raises tag ts (record : gmap string (value number)) :
  field_text (record !! "host") "unknown-host" = None ∨
  field_text (record !! "app") "unknown-app" = None →
  ∃ bad, make_key tag ts record = Raise bad.
Proof.
  intros H. destruct (make_key tag ts record) as [c t r|bad] eqn:E; [|eauto].
  apply make_key_inv in E as (h & a & Hh & Ha & _).
  destruct H; congruence.
Qed.

(** C3, amended: on a record whose [host] and [app] fields are each absent,
    [false], a string or a number, [make_key] returns and stores
    [host .. ":" .. app] under ["key"], where a field gives way to its
    sentinel exactly when it is absent or [false]; a string, the empty one
    included, is used as it is.  A record with neither field gets
    ["unknown-host:unknown-app"]. *)
Theorem make_key_routes (tag ts : value number)
    (record : gmap string (value number)) (h a : string) :
  field_text (record !! "host") "unknown-host" = Some h →
  field_text (record !! "app") "unknown-app" = Some a →
  make_key tag ts record
  = Return 1 ts (<["key" := LString (h +:+ ":" +:+ a)]> record) ∧
  (record !! "host" = None → record !! "app" = None →
   h +:+ ":" +:+ a = "unknown-host:unknown-app").
Proof.
  intros Hh Ha. split; [by apply make_key_returns|].
  intros Hnh Hna. rewrite Hnh in Hh. rewrite Hna in Ha.
  by injection Hh as <-; injection Ha as <-.
Qed.

(** C9: whatever [make_key] returns, the status code is 1, the timestamp is
    the one it was given, and every field of the record other than ["key"]
    has the value it had. *)
Theorem make_key_frame (tag ts : value number)
    (record : gmap string (value number)) (code : Z) (ts' : value number)
    (record' : gmap string (value number)) :
  make_key tag ts record = Return code ts' record' →
  code = 1 ∧ ts' = ts ∧
  ∀ field : string, field ≠ "key" → record' !! field = record !! field.
Proof.
  intros (h & a & _ & _ & -> & -> & ->)%make_key_inv. split_and!; [done..|].
  intros field Hne. by rewrite lookup_insert_ne.
Qed.

End LuaFacts.

Lemma make_key_routes_witness :
  Lua.make_key (pretty : Z → string) (Lua.LString "app.log")
    (Lua.LNumber 1704067200) {[ "log" := Lua.LString "started" ]}
  = Lua.Return 1 (Lua.LNumber 1704067200)
      (<["key" := Lua.LString ("unknown-host" +:+ ":" +:+ "unknown-app")]>
         {[ "log" := Lua.LString "started" ]}) ∧
  (({[ "log" := Lua.LString "started" ]} : gmap string (Lua.value Z)) !! "host"
   = None →
   ({[ "log" := Lua.LString "started" ]} : gmap string (Lua.value Z)) !! "app"
   = None →
   "unknown-host" +:+ ":" +:+ "unknown-app" = "unknown-host:unknown-app").
Proof.
  apply (make_key_routes (pretty : Z → string) (Lua.LString "app.log")
           (Lua.LNumber 1704067200) {[ "log" := Lua.LString "started" ]}
           "unknown-host" "unknown-app").
  - vm_compute. reflexivity.
  - vm_compute. reflexivity.
Defined.

(** A record with both fields, one of them a number. *)
Example make_key_host_and_port :
  Lua.make_key (pretty : Z → string) (Lua.LString "app.log")
    (Lua.LNumber 1704067200)
    {[ "host" := Lua.LString "h1"; "app" := Lua.LNumber 8080 ]}
  = Lua.Return 1 (Lua.LNumber 1704067200)
      (<["key" := Lua.LString "h1:8080"]>
         {[ "host" := Lua.LString "h1"; "app" := Lua.LNumber 8080 ]}).
Proof. vm_compute. reflexivity. Qed.

Lemma make_key_frame_witness :
  1 = 1 ∧ Lua.LNumber 1704067200 = Lua.LNumber (number:=Z) 1704067200 ∧
  ∀ field : string, field ≠ "key" →
    (<["key" := Lua.LString "h1:a1"]>
       ({[ "host" := Lua.LString "h1"; "app" := Lua.LString "a1" ]}
          : gmap string (Lua.value Z))) !! field
    = ({[ "host" := Lua.LString "h1"; "app" := Lua.LString "a1" ]}
         : gmap string (Lua.value Z)) !! field.
Proof.
  apply (make_key_frame (pretty : Z → string) (Lua.LString "app.log")
           (Lua.LNumber 1704067200)
           {[ "host" := Lua.LString "h1"; "app" := Lua.LString "a1" ]}).
  vm_compute. reflexivity.
Defined.

(** A [host] that is a nested table cannot be concatenated: the call raises
    and stores no key. *)
Example make_key_table_host :
  Lua.make_key (pretty : Z → string) (Lua.LString "app.log")
    (Lua.LNumber 1704067200) {[ "host" := Lua.LTable ∅ ]}
  = Lua.Raise (Lua.LTable ∅).
Proof. vm_compute. reflexivity. Qed.

(** C3, as stated, fails: a [host] that is the empty string is not replaced
    by the sentinel. *)
Lemma route_empty_host_counterexample :
  ¬ Lua.route_as_specified (pretty : Z → string).
Proof.
  intros Hclaim.
  specialize (Hclaim (Lua.LString "app.log") (Lua.LNumber 1704067200)
    {[ "host" := Lua.LString ""; "app" := Lua.LString "a1" ]}).
  rewrite (make_key_returns _ _ _ _ "" "a1") in Hclaim by by vm_compute.
  assert (Lua.spec_route (number:=Z)
            {[ "host" := Lua.LString ""; "app" := Lua.LString "a1" ]}
          = "unknown-host:a1") as Hspec by by vm_compute.
  rewrite Hspec in Hclaim.
  apply (f_equal (λ o, match o with
                       | Lua.Return _ _ r => r !! "key"
                       | Lua.Raise _ => None
                       end)) in Hclaim.
  rewrite !lookup_insert_eq in Hclaim. discriminate Hclaim.
Qed.

(** ** The engine *)

Section EngineFacts.
Import MergeTree.
Context {Row Key Ver Part : Type} `{EqDecision Part}.
Context (sorting_key : Row → Key) (key_cmp : Key → Key → comparison).
Context (version : Row → Ver) (ver_cmp : Ver → Ver → comparison).
Context (partition_by : Row → Part) (expired : Z → Row → bool).
Context `{!Ordered key_cmp} `{!Ordered ver_cmp}.

Abbreviation replace := (replace version ver_cmp).
Abbreviation merge_insert := (merge_insert sorting_key key_cmp version ver_cmp).
Abbreviation replacing_merge := (replacing_merge sorting_key key_cmp version ver_cmp).
Abbreviation same_key := (same_key sorting_key key_cmp).
Abbreviation find_key := (find_key sorting_key key_cmp).
Abbreviation in_group := (in_group sorting_key key_cmp partition_by).
Abbreviation survivor := (survivor version ver_cmp).
Abbreviation key_lt := (key_lt sorting_key key_cmp).
Abbreviation ver_le := (ver_le version ver_cmp).
Abbreviation ver_lt := (ver_lt version ver_cmp).
Abbreviation reconcile :=
  (reconcile sorting_key key_cmp version ver_cmp partition_by expired).

Lemma cmp_refl {A} (cmp : A → A → comparison) `{!Ordered cmp} a : cmp a a = Eq.
Proof. by apply cmp_eq. Qed.

Lemma cmp_gt_lt {A} (cmp : A → A → comparison) `{!Ordered cmp} a b :
  cmp a b = Gt ↔ cmp b a = Lt.
Proof. rewrite (cmp_antisym (cmp:=cmp) a b). destruct (cmp a b); naive_solver. Qed.

Lemma same_key_true k r : same_key k r = true ↔ sorting_key r = k.
Proof.
  unfold MergeTree.same_key. rewrite <-(cmp_eq (cmp:=key_cmp)).
  destruct (key_cmp (sorting_key r) k); split; congruence.
Qed.

Lemma replace_cases old new :
  (replace old new = old ∧ ver_lt new old) ∨
  (replace old new = new ∧ ver_le old new).
Proof.
  unfold MergeTree.replace, MergeTree.ver_lt, MergeTree.ver_le.
  destruct (ver_cmp (version new) (version old)) eqn:E; [right|left|right]; try done.
  - split; [done|]. apply cmp_eq in E. rewrite E, cmp_refl; done.
  - split; [done|]. apply cmp_gt_lt in E; [|done]. by rewrite E.
Qed.

Lemma ver_lt_le a b : ver_lt a b → ver_le a b.
Proof. unfold MergeTree.ver_lt, MergeTree.ver_le. by intros ->. Qed.

Lemma ver_le_trans a b c : ver_le a b → ver_le b c → ver_le a c.
Proof.
  unfold MergeTree.ver_le. intros Hab Hbc Hac.
  apply cmp_gt_lt in Hac; [|done].
  destruct (ver_cmp (version a) (version b)) eqn:E1; [| |done].
  - apply cmp_eq in E1. rewrite E1 in Hac.
    apply cmp_gt_lt in Hac; [|done]. done.
  - pose proof (cmp_trans _ _ _ Hac E1) as H1.
    apply cmp_gt_lt in H1; [|done]. done.
Qed.

Lemma sorting_key_replace old new :
  sorting_key new = sorting_key old → sorting_key (replace old new) = sorting_key old.
Proof. destruct (replace_cases old new) as [[-> _]|[-> _]]; done. Qed.

(** *** Parts stay sorted, with one row for each key *)

Lemma elem_of_merge_insert x r part :
  x ∈ merge_insert r part → x = r ∨ x ∈ part.
Proof.
  induction part as [|h t IH]; simpl.
  - rewrite list_elem_of_singleton. auto.
  - destruct (key_cmp (sorting_key r) (sorting_key h)).
    + rewrite !elem_of_cons. intros [->|?]; [|by auto].
      destruct (replace_cases h r) as [[-> _]|[-> _]]; auto.
    + rewrite !elem_of_cons. naive_solver.
    + rewrite !elem_of_cons. intros [->|?]; [by auto|]. destruct IH; auto.
Qed.

Lemma merge_insert_sorted r part :
  StronglySorted key_lt part → StronglySorted key_lt (merge_insert r part).
Proof.
  induction 1 as [|h t Ht IH Hh]; simpl.
  - repeat constructor.
  - destruct (key_cmp (sorting_key r) (sorting_key h)) eqn:E.
    + apply cmp_eq in E. constructor; [done|].
      unfold MergeTree.key_lt in *. by rewrite sorting_key_replace.
    + constructor; [by constructor|]. constructor; [done|].
      eapply Forall_impl; [exact Hh|]. unfold MergeTree.key_lt.
      intros y Hy. eapply cmp_trans; eauto.
    + constructor; [done|]. apply Forall_forall. intros y Hy.
      apply elem_of_merge_insert in Hy as [->|Hy].
      * unfold MergeTree.key_lt. by apply cmp_gt_lt.
      * rewrite Forall_forall in Hh. auto.
Qed.

Lemma replacing_merge_from_sorted part rows :
  StronglySorted key_lt part →
  StronglySorted key_lt (foldl (λ part r, merge_insert r part) part rows).
Proof.
  revert part. induction rows as [|r rows IH]; simpl; [done|].
  intros part Hs. apply IH. by apply merge_insert_sorted.
Qed.

Lemma replacing_merge_sorted rows : StronglySorted key_lt (replacing_merge rows).
Proof. apply replacing_merge_from_sorted. constructor. Qed.

Lemma key_lt_irrefl a : ¬ key_lt a a.
Proof. unfold MergeTree.key_lt. by rewrite cmp_refl. Qed.

Lemma sorted_NoDup part : StronglySorted key_lt part → NoDup part.
Proof.
  induction 1 as [|h t Ht IH Hh]; constructor; [|done].
  intros Hin. rewrite Forall_forall in Hh. by eapply key_lt_irrefl, Hh.
Qed.

Lemma find_key_None k part :
  (∀ y, y ∈ part → sorting_key y ≠ k) → find_key k part = None.
Proof.
  induction part as [|h t IH]; simpl; [done|]. intros Hall.
  destruct (same_key k h) eqn:E.
  - apply same_key_true in E. destruct (Hall h); [left|done].
  - apply IH. intros y Hy. apply Hall. by right.
Qed.

Lemma find_key_Some k part x :
  find_key k part = Some x → x ∈ part ∧ sorting_key x = k.
Proof.
  induction part as [|h t IH]; simpl; [done|].
  destruct (same_key k h) eqn:E.
  - intros [= <-]. apply same_key_true in E. split; [left|done].
  - intros Hf. destruct (IH Hf). split; [by right|done].
Qed.

Lemma find_key_sorted part x :
  StronglySorted key_lt part → x ∈ part → find_key (sorting_key x) part = Some x.
Proof.
  induction 1 as [|h t Ht IH Hh]; [by intros ?%elem_of_nil|].
  rewrite elem_of_cons. simpl. intros [->|Hin].
  - by rewrite (proj2 (same_key_true _ _)).
  - destruct (same_key (sorting_key x) h) eqn:E; [|by auto].
    apply same_key_true in E. rewrite Forall_forall in Hh.
    specialize (Hh x Hin). unfold MergeTree.key_lt in Hh.
    rewrite E, cmp_refl in Hh; done.
Qed.

(** *** The row kept for a key is the survivor of its group *)

Lemma find_key_merge_insert k r part :
  StronglySorted key_lt part →
  find_key k (merge_insert r part)
  = if same_key k r
    then Some (from_option (λ old, replace old r) r (find_key k part))
    else find_key k part.
Proof.
  induction 1 as [|h t Ht IH Hh]; simpl.
  - by destruct (same_key k r).
  - destruct (key_cmp (sorting_key r) (sorting_key h)) eqn:E; simpl.
    + apply cmp_eq in E.
      assert (same_key k (replace h r) = same_key k h) as ->.
      { unfold MergeTree.same_key. by rewrite sorting_key_replace. }
      assert (same_key k r = same_key k h) as ->.
      { unfold MergeTree.same_key. by rewrite E. }
      by destruct (same_key k h).
    + destruct (same_key k r) eqn:Er; [|done].
      apply same_key_true in Er.
      assert (find_key k (h :: t) = None) as Hn; [|simpl in Hn; by rewrite Hn].
      apply find_key_None. intros y Hy Hk. subst k. rewrite <-Hk in E.
      apply elem_of_cons in Hy as [->|Hy].
      * by rewrite cmp_refl in E.
      * rewrite Forall_forall in Hh. specialize (Hh y Hy).
        unfold MergeTree.key_lt in Hh.
        pose proof (cmp_trans _ _ _ E Hh) as Hbad.
        by rewrite cmp_refl in Hbad.
    + destruct (same_key k h) eqn:Eh.
      * apply same_key_true in Eh. subst k.
        assert (same_key (sorting_key h) r = false) as ->; [|done].
        unfold MergeTree.same_key. by rewrite E.
      * apply IH.
Qed.

Lemma find_key_foldl k part rows :
  StronglySorted key_lt part →
  find_key k (foldl (λ part r, merge_insert r part) part rows)
  = survivor (same_key k) (find_key k part) rows.
Proof.
  revert part. induction rows as [|r rows IH]; simpl; [done|].
  intros part Hs. rewrite IH by by apply merge_insert_sorted.
  by rewrite find_key_merge_insert.
Qed.

Lemma find_key_replacing_merge k rows :
  find_key k (replacing_merge rows) = survivor (same_key k) None rows.
Proof. unfold MergeTree.replacing_merge. rewrite find_key_foldl; [done|constructor]. Qed.

Lemma elem_of_replacing_merge x rows :
  x ∈ replacing_merge rows ↔ survivor (same_key (sorting_key x)) None rows = Some x.
Proof.
  rewrite <-find_key_replacing_merge. split.
  - apply find_key_sorted, replacing_merge_sorted.
  - by intros [? _]%find_key_Some.
Qed.

(** *** What the survivor of a group is *)

Lemma survivor_filter (Q : Row → Prop) `{∀ r, Decision (Q r)} g sel rows :
  survivor g sel (filter Q rows)
  = survivor (λ r, bool_decide (Q r) && g r) sel rows.
Proof.
  revert sel. induction rows as [|r rows IH]; intros sel; [done|].
  rewrite filter_cons. simpl. destruct (decide (Q r)) as [HQ|HQ].
  - rewrite (bool_decide_eq_true_2 _ HQ). simpl. apply IH.
  - rewrite (bool_decide_eq_false_2 _ HQ). simpl. apply IH.
Qed.

Lemma survivor_partition_rows p k rows :
  survivor (same_key k) None (partition_rows partition_by p rows)
  = survivor (in_group p k) None rows.
Proof. apply survivor_filter. Qed.

Lemma survivor_spec g sel rows x :
  survivor g sel rows = Some x →
  (sel = Some x ∧ ∀ y, y ∈ rows → g y = true → ver_lt y x) ∨
  (∃ l1 l2, rows = l1 ++ x :: l2 ∧ g x = true ∧
     (∀ s, sel = Some s → ver_le s x) ∧
     (∀ y, y ∈ l1 → g y = true → ver_le y x) ∧
     (∀ y, y ∈ l2 → g y = true → ver_lt y x)).
Proof.
  revert sel. induction rows as [|r rows IH]; intros sel; simpl.
  { intros ->. left. split; [done|]. by intros y ?%elem_of_nil. }
  destruct (g r) eqn:Er.
  - intros [[Hsel Hlt]|(l1 & l2 & -> & Hx & Hs & H1 & H2)]%IH.
    + injection Hsel as Hsel. destruct sel as [old|]; simpl in Hsel.
      * destruct (replace_cases old r) as [[Hrep Hro]|[Hrep Hor]];
          rewrite Hrep in Hsel; subst x.
        -- left. split; [done|]. intros y [->|Hy]%elem_of_cons Hg; auto.
        -- right. exists [], rows. split_and!; auto.
           ++ by intros s [= <-].
           ++ by intros y ?%elem_of_nil.
      * subst x. right. exists [], rows. split_and!; auto.
        -- done.
        -- by intros y ?%elem_of_nil.
    + right. exists (r :: l1), l2. split_and!; auto.
      * intros s ->. simpl in Hs.
        destruct (replace_cases s r) as [[Hrep Hro]|[Hrep Hor]].
        -- apply Hs. by rewrite Hrep.
        -- eapply ver_le_trans; [exact Hor|]. apply Hs. by rewrite Hrep.
      * intros y [->|Hy]%elem_of_cons Hg; [|by auto].
        destruct sel as [s|]; simpl in Hs; [|by apply Hs].
        destruct (replace_cases s r) as [[Hrep Hro]|[Hrep Hor]].
        -- eapply ver_le_trans; [by apply ver_lt_le|]. apply Hs. by rewrite Hrep.
        -- apply Hs. by rewrite Hrep.
  - intros [[Hsel Hlt]|(l1 & l2 & -> & Hx & Hs & H1 & H2)]%IH.
    + left. split; [done|]. intros y [->|Hy]%elem_of_cons Hg; [congruence|auto].
    + right. exists (r :: l1), l2. split_and!; auto.
      intros y [->|Hy]%elem_of_cons Hg; [congruence|auto].
Qed.

Lemma survivor_is_Some g sel rows :
  is_Some sel ∨ (∃ y, y ∈ rows ∧ g y = true) → is_Some (survivor g sel rows).
Proof.
  revert sel. induction rows as [|r rows IH]; intros sel; simpl.
  - intros [?|(y & ?%elem_of_nil & _)]; done.
  - intros [Hs|(y & [->|Hy]%elem_of_cons & Hg)]; apply IH.
    + left. destruct (g r); [by eexists|done].
    + left. rewrite Hg. by eexists.
    + right. eauto.
Qed.

(** The survivor of a group is one of its rows, no row of the group has a
    greater version, and the rows of the group written after it have a
    smaller one. *)
Lemma survivor_None_spec g rows x :
  survivor g None rows = Some x →
  ∃ l1 l2, rows = l1 ++ x :: l2 ∧ g x = true ∧
    (∀ y, y ∈ l1 → g y = true → ver_le y x) ∧
    (∀ y, y ∈ l2 → g y = true → ver_lt y x).
Proof.
  intros [[? _]|(l1 & l2 & ? & ? & _ & ? & ?)]%survivor_spec; [done|eauto 10].
Qed.

(** *** A pass over the whole table *)

Lemma replacing_merge_from_subset x part rows :
  x ∈ foldl (λ part r, merge_insert r part) part rows → x ∈ part ∨ x ∈ rows.
Proof.
  revert part. induction rows as [|r rows IH]; simpl; intros part; [by auto|].
  intros [[->|?]%elem_of_merge_insert|?]%IH; rewrite elem_of_cons; auto.
Qed.

Lemma replacing_merge_subset x rows : x ∈ replacing_merge rows → x ∈ rows.
Proof. by intros [?%elem_of_nil|?]%replacing_merge_from_subset. Qed.

Lemma in_group_true p k r :
  in_group p k r = true ↔ partition_by r = p ∧ sorting_key r = k.
Proof.
  unfold MergeTree.in_group.
  by rewrite andb_true_iff, bool_decide_eq_true, same_key_true.
Qed.

Lemma elem_of_reconcile now rows x :
  x ∈ reconcile now rows ↔
  expired now x = false ∧
  survivor (in_group (partition_by x) (sorting_key x)) None rows = Some x.
Proof.
  unfold MergeTree.reconcile, MergeTree.merge_partition, MergeTree.ttl_delete.
  rewrite list_elem_of_bind. split.
  - intros (p & [Hexp Hin]%list_elem_of_filter & Hp). split; [done|].
    apply elem_of_replacing_merge in Hin as Hs.
    apply replacing_merge_subset, list_elem_of_filter in Hin as [<- _].
    by rewrite <-survivor_partition_rows.
  - intros [Hexp Hs]. exists (partition_by x).
    rewrite list_elem_of_filter, elem_of_replacing_merge, survivor_partition_rows.
    split; [done|]. unfold MergeTree.partition_ids.
    rewrite elem_of_remove_dups, list_elem_of_fmap.
    apply survivor_None_spec in Hs as (l1 & l2 & -> & _). exists x.
    split; [done|]. rewrite elem_of_app, elem_of_cons. auto.
Qed.

Lemma reconcile_subset now rows x : x ∈ reconcile now rows → x ∈ rows.
Proof.
  intros [_ (l1 & l2 & -> & _)%survivor_None_spec]%elem_of_reconcile.
  rewrite elem_of_app, elem_of_cons. auto.
Qed.

Lemma NoDup_reconcile now rows : NoDup (reconcile now rows).
Proof.
  unfold MergeTree.reconcile, MergeTree.merge_partition, MergeTree.ttl_delete.
  apply NoDup_bind.
  - intros p1 p2 y _ _ [_ H1]%list_elem_of_filter [_ H2]%list_elem_of_filter.
    apply replacing_merge_subset, list_elem_of_filter in H1 as [<- _].
    by apply replacing_merge_subset, list_elem_of_filter in H2 as [<- _].
  - intros p _. apply NoDup_filter, sorted_NoDup, replacing_merge_sorted.
  - apply NoDup_remove_dups.
Qed.

(** Two rows of one group never both outlive a pass. *)
Lemma reconcile_one_per_group now rows x y :
  x ∈ reconcile now rows → y ∈ reconcile now rows →
  partition_by x = partition_by y → sorting_key x = sorting_key y → x = y.
Proof.
  intros [_ Hx]%elem_of_reconcile [_ Hy]%elem_of_reconcile Hp Hk.
  rewrite Hp, Hk in Hx. congruence.
Qed.

(** *** Columns the engine does not read *)

(** A change of the rows that leaves their sorting key, version, partition
    and expiry as they are commutes with every step of a pass. *)
Section Unread.
Context (g : Row → Row).
Hypothesis g_key : ∀ r, sorting_key (g r) = sorting_key r.
Hypothesis g_version : ∀ r, version (g r) = version r.
Hypothesis g_partition : ∀ r, partition_by (g r) = partition_by r.
Hypothesis g_expired : ∀ now r, expired now (g r) = expired now r.

Lemma replace_fmap old new : replace (g old) (g new) = g (replace old new).
Proof.
  unfold MergeTree.replace. rewrite !g_version.
  by destruct (ver_cmp (version new) (version old)).
Qed.

Lemma merge_insert_fmap r part :
  merge_insert (g r) (g <$> part) = g <$> merge_insert r part.
Proof.
  induction part as [|h t IH]; [done|]. simpl. rewrite !g_key.
  destruct (key_cmp (sorting_key r) (sorting_key h)); simpl.
  - by rewrite replace_fmap.
  - done.
  - f_equal. exact IH.
Qed.

Lemma replacing_merge_fmap rows :
  replacing_merge (g <$> rows) = g <$> replacing_merge rows.
Proof.
  unfold MergeTree.replacing_merge. change [] with (g <$> []) at 1.
  generalize (@nil Row). induction rows as [|r rows IH]; intros part; [done|].
  simpl. by rewrite merge_insert_fmap, IH.
Qed.

Lemma filter_fmap_unread (P : Row → Prop) `{∀ r, Decision (P r)} (rows : list Row) :
  (∀ r, P (g r) ↔ P r) → filter P (g <$> rows) = g <$> filter P rows.
Proof.
  intros HP. induction rows as [|r rows IH]; [done|].
  rewrite fmap_cons, !filter_cons. destruct (decide (P r)) as [Hr|Hr].
  - rewrite decide_True by by apply HP. by rewrite IH.
  - rewrite decide_False by by rewrite HP. done.
Qed.

Lemma reconcile_fmap now rows :
  reconcile now (g <$> rows) = g <$> reconcile now rows.
Proof.
  unfold MergeTree.reconcile, MergeTree.partition_ids.
  rewrite <-list_fmap_compose.
  rewrite (list_fmap_ext (partition_by ∘ g) partition_by rows)
    by (intros; apply g_partition).
  induction (remove_dups (partition_by <$> rows)) as [|p ids IH]; [done|].
  rewrite !bind_cons, fmap_app, <-IH. f_equal.
  unfold MergeTree.merge_partition, MergeTree.ttl_delete,
    MergeTree.partition_rows.
  rewrite (filter_fmap_unread (λ r, partition_by r = p))
    by (intros r; by rewrite g_partition).
  rewrite replacing_merge_fmap.
  apply filter_fmap_unread. intros r. by rewrite g_expired.
Qed.

End Unread.

(** Of two rows with one sorting key, in one partition and not expired, the
    one written first is kept when its version is the greater. *)
Lemma reconcile_first_written now a b :
  sorting_key b = sorting_key a → partition_by b = partition_by a →
  ver_cmp (version b) (version a) = Lt → expired now a = false →
  reconcile now [a; b] = [a].
Proof.
  intros Hk Hp Hv He.
  unfold MergeTree.reconcile, MergeTree.partition_ids.
  assert (remove_dups (partition_by <$> [a; b]) = [partition_by a]) as ->.
  { simpl. rewrite Hp. destruct (decide_rel _ _ _) as [|Hn]; [done|].
    destruct Hn. left. }
  rewrite bind_cons. change ([] ≫= _) with (@nil Row). rewrite app_nil_r.
  unfold MergeTree.merge_partition, MergeTree.partition_rows.
  rewrite !filter_cons, !decide_True by done. rewrite filter_nil.
  unfold MergeTree.replacing_merge. simpl.
  rewrite Hk, cmp_refl by done. unfold MergeTree.replace. rewrite Hv.
  unfold MergeTree.ttl_delete. rewrite filter_cons, decide_True by done.
  by rewrite filter_nil.
Qed.

End EngineFacts.

(** ** Orders on column values *)

Section Orders.
Import MergeTree.

#[global] Instance Z_compare_ordered : Ordered Z.compare.
Proof.
  split.
  - intros a b. apply Z.compare_eq_iff.
  - intros a b. apply Z.compare_antisym.
  - intros a b c. rewrite !Z.compare_lt_iff. lia.
Qed.

Lemma ascii_compare_eq a b : Ascii.compare a b = Eq ↔ a = b.
Proof.
  split; [apply Ascii.compare_eq_iff|]. intros ->.
  unfold Ascii.compare. apply N.compare_refl.
Qed.

Lemma ascii_compare_trans a b c :
  Ascii.compare a b = Lt → Ascii.compare b c = Lt → Ascii.compare a c = Lt.
Proof. unfold Ascii.compare. rewrite !N.compare_lt_iff. lia. Qed.

Lemma string_compare_refl s : String.compare s s = Eq.
Proof.
  induction s as [|a s IH]; simpl; [done|].
  by rewrite (proj2 (ascii_compare_eq a a)).
Qed.

Lemma string_compare_trans s1 s2 s3 :
  String.compare s1 s2 = Lt → String.compare s2 s3 = Lt →
  String.compare s1 s3 = Lt.
Proof.
  revert s2 s3. induction s1 as [|a s1 IH]; intros [|b s2] [|c s3]; simpl; try done.
  destruct (Ascii.compare a b) eqn:Eab; [| |done].
  - apply ascii_compare_eq in Eab as ->.
    destruct (Ascii.compare b c); [by apply IH|done..].
  - intros _. destruct (Ascii.compare b c) eqn:Ebc; [| |done].
    + apply ascii_compare_eq in Ebc as <-. by rewrite Eab.
    + by rewrite (ascii_compare_trans _ _ _ Eab Ebc).
Qed.

#[global] Instance string_compare_ordered : Ordered String.compare.
Proof.
  split.
  - intros a b. split; [apply String.compare_eq_iff|].
    intros ->. apply string_compare_refl.
  - intros a b. apply String.compare_antisym.
  - apply string_compare_trans.
Qed.

#[global] Instance lex_ordered {A B} (cmpA : A → A → comparison)
  (cmpB : B → B → comparison) `{!Ordered cmpA} `{!Ordered cmpB} :
  Ordered (lex cmpA cmpB).
Proof.
  split.
  - intros [a1 b1] [a2 b2]. unfold lex. simpl.
    destruct (cmpA a1 a2) eqn:Ea.
    + apply cmp_eq in Ea as ->. rewrite cmp_eq. naive_solver.
    + split; [done|]. intros [= -> ->]. by rewrite cmp_refl in Ea.
    + split; [done|]. intros [= -> ->]. by rewrite cmp_refl in Ea.
  - intros [a1 b1] [a2 b2]. unfold lex. simpl.
    rewrite (cmp_antisym (cmp:=cmpA) a1 a2).
    destruct (cmpA a1 a2); simpl; [apply cmp_antisym|done..].
  - intros [a1 b1] [a2 b2] [a3 b3]. unfold lex. simpl.
    destruct (cmpA a1 a2) eqn:E12; [| |done].
    + apply cmp_eq in E12 as ->.
      destruct (cmpA a2 a3); [apply cmp_trans|done..].
    + intros _. destruct (cmpA a2 a3) eqn:E23; [| |done].
      * apply cmp_eq in E23 as <-. by rewrite E12.
      * by rewrite (cmp_trans _ _ _ E12 E23).
Qed.

#[global] Instance fact_key_ordered : Ordered fact_app_log.key_cmp.
Proof. unfold fact_app_log.key_cmp. apply _. Qed.

#[global] Instance fact_ver_ordered : Ordered fact_app_log.ver_cmp.
Proof. unfold fact_app_log.ver_cmp. apply _. Qed.

End Orders.

(** ** The fact table *)

Section StoreFacts.
Import ClickHouse fact_app_log.

Abbreviation fact_survivor := (MergeTree.survivor version ver_cmp).
Abbreviation fact_group r :=
  (MergeTree.in_group sorting_key key_cmp partition_by (partition_by r) (sorting_key r)).

Lemma sorting_key_ts x y : sorting_key x = sorting_key y → ts x = ts y.
Proof. unfold sorting_key. by intros [= _ _ _ ?]. Qed.

Lemma sorting_key_partition x y :
  sorting_key x = sorting_key y → partition_by x = partition_by y.
Proof. unfold partition_by. by intros ->%sorting_key_ts. Qed.

Lemma sorting_key_expired now x y :
  sorting_key x = sorting_key y → expired now x = expired now y.
Proof. unfold expired, ttl. by intros ->%sorting_key_ts. Qed.

Lemma fact_group_true r y : fact_group r y = true ↔ sorting_key y = sorting_key r.
Proof.
  rewrite in_group_true by apply _. split; [by intros [_ ?]|].
  intros Hk. split; [by apply sorting_key_partition|done].
Qed.

Lemma expired_false now r : expired now r = false ↔ now < ttl r.
Proof. unfold expired. rewrite bool_decide_eq_false. lia. Qed.

Lemma elem_of_fact_reconcile now table r :
  r ∈ reconcile now table ↔
  now < ttl r ∧ fact_survivor (fact_group r) None table = Some r.
Proof.
  unfold reconcile. rewrite elem_of_reconcile by apply _.
  by rewrite expired_false.
Qed.

Lemma fact_reconcile_subset now table r : r ∈ reconcile now table → r ∈ table.
Proof. unfold reconcile. by apply reconcile_subset; apply _. Qed.

(** A list without repetition whose members all are [x] is [[x]]. *)
Lemma NoDup_all_eq {A} (l : list A) x :
  NoDup l → x ∈ l → (∀ y, y ∈ l → y = x) → length l = 1%nat.
Proof.
  intros Hnd Hin Hall. destruct l as [|a [|b l]]; [by apply elem_of_nil in Hin|done|].
  rewrite (Hall a), (Hall b) in Hnd by (rewrite !elem_of_cons; auto).
  apply NoDup_cons in Hnd as [Hnd _]. destruct Hnd. left.
Qed.

Lemma mv_where_true parseDate msg : mv_where parseDate msg = true.
Proof. reflexivity. Qed.

Lemma mv_app_logs_consume_map parseDate parseJson clock block :
  mv_app_logs_consume parseDate parseJson clock block
  = mv_select parseDate parseJson clock <$> block.
Proof.
  unfold mv_app_logs_consume. f_equal.
  induction block as [|r block IH]; [done|].
  rewrite filter_cons_True by apply mv_where_true. by rewrite IH.
Qed.

(** The pass does not read [ingest_time]: writing other values into that
    column changes nothing but the values the rows left carry. *)
Lemma fact_reconcile_ingest_time now table (f : row → DateTime64) :
  reconcile now (with_ingest_time f <$> table)
  = with_ingest_time f <$> reconcile now table.
Proof.
  assert (∀ r, ts (with_ingest_time f r) = ts r) as Hts by done.
  unfold reconcile.
  apply (reconcile_fmap sorting_key key_cmp version ver_cmp partition_by
           expired (with_ingest_time f)).
  - intros r. unfold sorting_key, date. by rewrite Hts.
  - done.
  - intros r. unfold partition_by. by rewrite Hts.
  - intros now' r. unfold expired, ttl. by rewrite Hts.
Qed.

(** A resident row that is not expired has its ordering key in the table
    after the pass. *)
Lemma fact_key_survives now table r :
  r ∈ table → now < ttl r →
  ∃ y, y ∈ reconcile now table ∧ sorting_key y = sorting_key r.
Proof.
  intros Hr Hnow.
  destruct (survivor_is_Some version ver_cmp (fact_group r) None table)
    as [x Hx].
  { right. exists r. split; [done|]. by apply fact_group_true. }
  apply survivor_None_spec in Hx as Hspec; [|apply _].
  destruct Hspec as (l1 & l2 & Hsplit & Hkx%fact_group_true & _).
  exists x. split; [|done]. apply elem_of_fact_reconcile. split.
  - apply expired_false. rewrite (sorting_key_expired now x r Hkx).
    by apply expired_false.
  - by rewrite (sorting_key_partition x r Hkx), Hkx.
Qed.

Lemma ttl_seconds r : ttl r = toDateTime (ts r) + 14 * 86400.
Proof.
  unfold ttl, toDateTime.
  rewrite (Z.div_add (ts r) (14 * 86400) 1000); done.
Qed.

(** C8, as stated, fails at the boundary: a row that is 999 milliseconds
    short of fourteen days at the instant of the pass is deleted, for the
    clock of the TTL counts whole seconds. *)
Lemma retention_boundary_counterexample : ¬ newer_rows_outlive_retention.
Proof.
  intros Hclaim.
  destruct (Hclaim (toDateTime64 (new_year + 14 * 86400))
    [example_row (toDateTime64 new_year + 999) "3-10" 1704067200100]
    (example_row (toDateTime64 new_year + 999) "3-10" 1704067200100))
    as (y & Hy & _).
  - left.
  - vm_compute. reflexivity.
  - assert (reconcile (toDateTime (toDateTime64 (new_year + 14 * 86400)))
      [example_row (toDateTime64 new_year + 999) "3-10" 1704067200100] = [])
      as Hpass by (vm_compute; reflexivity).
    rewrite Hpass in Hy. by apply elem_of_nil in Hy.
Qed.

(** C8, amended: retention is measured from the event timestamp [ts], in
    whole seconds, and not from [ingest_time].  For a pass at the instant
    [instant]: the ordering key of a resident row is in the table after the
    pass exactly when the clock, in seconds, has not reached the second of
    [ts] plus fourteen days; so a row that is fourteen days old or older is
    gone, and a row that is a second or more short of fourteen days is
    never deleted by retention: it, or the row that took its place under
    its ordering key, is in the table, and the row itself when no other
    resident row has its ordering key.  Other values of [ingest_time]
    change nothing of this. *)
Theorem retention_by_event_time (instant : DateTime64) (table : list row) :
  (∀ r, r ∈ table →
     (∃ y, y ∈ reconcile (toDateTime instant) table ∧
        sorting_key y = sorting_key r) ↔
     toDateTime instant < toDateTime (ts r) + 14 * 86400) ∧
  (∀ r, ts r + 14 * 86400 * 1000 ≤ instant →
     r ∉ reconcile (toDateTime instant) table) ∧
  (∀ r, r ∈ table → instant + 1000 ≤ ts r + 14 * 86400 * 1000 →
     (∃ y, y ∈ reconcile (toDateTime instant) table ∧
        sorting_key y = sorting_key r) ∧
     ((∀ x, x ∈ table → sorting_key x = sorting_key r → x = r) →
      r ∈ reconcile (toDateTime instant) table)) ∧
  (∀ f : row → DateTime64,
     reconcile (toDateTime instant) (with_ingest_time f <$> table)
     = with_ingest_time f <$> reconcile (toDateTime instant) table).
Proof.
  split_and!.
  - intros r Hr. rewrite <-ttl_seconds. split; [|by apply fact_key_survives].
    intros (y & [Hy _]%elem_of_fact_reconcile & Hk).
    unfold ttl in *. by rewrite <-(sorting_key_ts y r Hk).
  - intros r Hold [Hy _]%elem_of_fact_reconcile.
    rewrite ttl_seconds in Hy. unfold toDateTime in *.
    Z.div_mod_to_equations. lia.
  - intros r Hr Hnew.
    destruct (fact_key_survives (toDateTime instant) table r Hr) as (y & Hy & Hk).
    { rewrite ttl_seconds. unfold toDateTime. Z.div_mod_to_equations. lia. }
    split; [by exists y|]. intros Halone.
    by rewrite <-(Halone y (fact_reconcile_subset _ _ _ Hy) Hk).
  - apply fact_reconcile_ingest_time.
Qed.

(** C10: there are two stored rows with distinct dedup tokens and the same
    [(date, app, host, ts)] of which a pass keeps only one: the merge deletes
    a row whose token is unique in the table.  And so it is whenever two
    rows share the ordering key: at most one of them is left. *)
Theorem merge_deletes_row_with_unique_token :
  (∃ (r1 r2 : row) (now : DateTime),
     dedup_token r1 ≠ dedup_token r2 ∧
     (date r1, app r1, host r1, ts r1) = (date r2, app r2, host r2, ts r2) ∧
     reconcile now [r1; r2] = [r2]) ∧
  (∀ (now : DateTime) (table : list row) (r1 r2 : row),
     dedup_token r1 ≠ dedup_token r2 →
     (date r1, app r1, host r1, ts r1) = (date r2, app r2, host r2, ts r2) →
     ¬ (r1 ∈ reconcile now table ∧ r2 ∈ reconcile now table)).
Proof.
  split.
  - exists (example_row (toDateTime64 new_year) "3-10" 1704067200100),
      (example_row (toDateTime64 new_year) "3-11" 1704067200100), (new_year + 60).
    split_and!; [done|done|]. vm_compute. reflexivity.
  - intros now table r1 r2 Htok Hkey [H1 H2]. apply Htok. f_equal.
    apply (reconcile_one_per_group sorting_key key_cmp version ver_cmp
             partition_by expired now table); [done..| |];
      [apply sorting_key_partition|]; exact Hkey.
Qed.


(** C2, as stated, fails, and not only for want of a proviso.  Where write
    order and [ingest_time] agree, the row a pass keeps need not have the
    latest [ingest_time] of the rows collapsed into it: of two rows with one
    ordering key and the tokens 3-10 and 3-11, the one with the token the
    engine ranks higher is kept also when it was written first, whichever
    of the two that is.  And where they do not agree, it need not have the
    latest [ingest_time] of its own copies: the copy written last is kept. *)
Lemma latest_ingest_time_counterexample :
  ¬ latest_ingest_time_wins ingest_ordered collapsed_into ∧
  ¬ latest_ingest_time_wins (λ _, True) copy_of.
Proof.
  split; intros Hclaim.
  - assert (∀ low high,
      ver_cmp low high = Lt →
      reconcile (new_year + 60)
        [example_row (toDateTime64 new_year) high 1704067200100;
         example_row (toDateTime64 new_year) low 1704067230500]
      = [example_row (toDateTime64 new_year) high 1704067200100]) as Hfirst.
    { intros low high Hlt. unfold reconcile.
      by apply (reconcile_first_written sorting_key key_cmp version ver_cmp
                  partition_by expired). }
    assert (∀ low high, ver_cmp low high = Lt → False) as Hno.
    { intros low high Hlt.
      specialize (Hclaim (new_year + 60)
        [example_row (toDateTime64 new_year) high 1704067200100;
         example_row (toDateTime64 new_year) low 1704067230500]
        (example_row (toDateTime64 new_year) high 1704067200100)
        (example_row (toDateTime64 new_year) low 1704067230500)).
      rewrite (Hfirst low high Hlt) in Hclaim.
      assert (1704067230500 ≤ 1704067200100); [|lia].
      apply Hclaim; [|left|right; left|reflexivity].
      unfold ingest_ordered. repeat constructor. simpl. lia. }
    destruct (ver_cmp "3-10" "3-11") eqn:E.
    + by apply (MergeTree.cmp_eq (cmp:=ver_cmp)) in E.
    + by apply (Hno "3-10" "3-11").
    + apply (Hno "3-11" "3-10"). by apply (cmp_gt_lt ver_cmp).
  - specialize (Hclaim (new_year + 60)
      [example_row (toDateTime64 new_year) "3-10" 1704067230500;
       example_row (toDateTime64 new_year) "3-10" 1704067200100]
      (example_row (toDateTime64 new_year) "3-10" 1704067200100)
      (example_row (toDateTime64 new_year) "3-10" 1704067230500)).
    assert (reconcile (new_year + 60)
      [example_row (toDateTime64 new_year) "3-10" 1704067230500;
       example_row (toDateTime64 new_year) "3-10" 1704067200100]
      = [example_row (toDateTime64 new_year) "3-10" 1704067200100]) as Hpass
      by by vm_compute.
    rewrite Hpass in Hclaim.
    specialize (Hclaim I ltac:(left) ltac:(left) (conj eq_refl eq_refl)).
    simpl in Hclaim. lia.
Qed.

(** With the tokens ranked as strings: offsets 10 and 11 carry two lines
    with the same timestamp and offset 10 is delivered again later.  The
    row of offset 11 is kept. *)
Example redelivered_copy_loses_to_greater_token :
  reconcile (new_year + 60)
    [example_row (toDateTime64 new_year) "3-10" 1704067200100;
     example_row (toDateTime64 new_year) "3-11" 1704067200100;
     example_row (toDateTime64 new_year) "3-10" 1704067230500]
  = [example_row (toDateTime64 new_year) "3-11" 1704067200100].
Proof. by vm_compute. Qed.

(** C2, amended: a row that outlives a pass is the last written of the
    resident rows that share its ordering key and its dedup token, and so
    carries the latest [ingest_time] among them whenever [ingest_time] does
    not decrease along the write order.  The pass does not read
    [ingest_time]: with other values in that column it keeps the same rows,
    each with the value it was given. *)
Theorem survivor_is_last_written_copy (now : DateTime) (table : list row) :
  (∀ r, r ∈ reconcile now table →
     ∃ before after,
       table = before ++ r :: after ∧
       (∀ y, y ∈ after → sorting_key y = sorting_key r →
          dedup_token y ≠ dedup_token r) ∧
       (ingest_ordered table →
        ∀ y, y ∈ table → sorting_key y = sorting_key r →
          dedup_token y = dedup_token r → ingest_time y ≤ ingest_time r)) ∧
  (∀ f : row → DateTime64,
     reconcile now (with_ingest_time f <$> table)
     = with_ingest_time f <$> reconcile now table).
Proof.
  split; [|apply fact_reconcile_ingest_time].
  intros r [_ Hs]%elem_of_fact_reconcile.
  apply survivor_None_spec in Hs as (before & after & -> & _ & _ & Hafter);
    [|apply _].
  assert (∀ y, y ∈ after → sorting_key y = sorting_key r →
    dedup_token y ≠ dedup_token r) as Hlast.
  { intros y Hy Hk Ht. specialize (Hafter y Hy (proj2 (fact_group_true r y) Hk)).
    unfold MergeTree.ver_lt, version in Hafter.
    rewrite Ht, (cmp_refl ver_cmp) in Hafter. done. }
  exists before, after. split_and!; [done|done|].
  intros [Hcross [_ Hr]]%StronglySorted_app y Hy Hk Ht.
  apply elem_of_app in Hy as [Hy|Hy].
  - apply Hcross; [done|left].
  - apply elem_of_cons in Hy as [->|Hy]; [done|]. by destruct (Hlast y).
Qed.

Lemma survivor_is_last_written_copy_witness :
  ingest_ordered
    [example_row (toDateTime64 new_year) "3-10" 1704067200100;
     example_row (toDateTime64 new_year) "3-10" 1704067230500] ∧
  ∃ before after,
    [example_row (toDateTime64 new_year) "3-10" 1704067200100;
     example_row (toDateTime64 new_year) "3-10" 1704067230500]
    = before ++ example_row (toDateTime64 new_year) "3-10" 1704067230500 :: after ∧
    (∀ y, y ∈ after →
       sorting_key y
       = sorting_key (example_row (toDateTime64 new_year) "3-10" 1704067230500) →
       dedup_token y
       ≠ dedup_token (example_row (toDateTime64 new_year) "3-10" 1704067230500)) ∧
    (ingest_ordered
       [example_row (toDateTime64 new_year) "3-10" 1704067200100;
        example_row (toDateTime64 new_year) "3-10" 1704067230500] →
     ∀ y, y ∈ [example_row (toDateTime64 new_year) "3-10" 1704067200100;
               example_row (toDateTime64 new_year) "3-10" 1704067230500] →
       sorting_key y
       = sorting_key (example_row (toDateTime64 new_year) "3-10" 1704067230500) →
       dedup_token y
       = dedup_token (example_row (toDateTime64 new_year) "3-10" 1704067230500) →
       ingest_time y
       ≤ ingest_time (example_row (toDateTime64 new_year) "3-10" 1704067230500)).
Proof.
  split.
  - unfold ingest_ordered. repeat constructor. simpl. lia.
  - apply (proj1 (survivor_is_last_written_copy (new_year + 60) _)).
    vm_compute. left.
Defined.




End StoreFacts.

(** ** Conversions between numbers and text *)

Section Conversions.
Import ClickHouse.

Lemma digit_value_pretty (d : N) :
  (d < 10)%N → digit_value (pretty_N_char d) = Some (Z.of_N d).
Proof.
  intros Hd. rewrite <-(N2Nat.id d). assert (N.to_nat d < 10)%nat as Hn by lia.
  revert Hn. generalize (N.to_nat d). intros n Hn.
  do 10 (destruct n as [|n]; [by vm_compute|]). lia.
Qed.

(** Reading the digits that [pretty] writes for [x] shifts the number read so
    far and adds [x]. *)
Lemma readDigits_pretty_go (x : N) (s : string) :
  ∃ k : Z, 0 ≤ k ∧
    ∀ acc, readDigits acc (pretty_N_go x s) = readDigits (acc * 10 ^ k + Z.of_N x) s.
Proof.
  revert s. induction (N.lt_wf_0 x) as [x _ IH]. intros s.
  destruct (decide (x = 0%N)) as [->|Hx].
  { exists 0. split; [done|]. intros acc. rewrite pretty_N_go_0. f_equal. lia. }
  rewrite pretty_N_go_step by lia.
  destruct (IH (x `div` 10)%N) with (s := String (pretty_N_char (x `mod` 10)) s)
    as (k & Hk & Hread).
  { apply N.div_lt; lia. }
  exists (k + 1). split; [lia|]. intros acc. rewrite Hread. simpl.
  rewrite digit_value_pretty by (apply N.mod_lt; lia). f_equal.
  rewrite Z.pow_add_r, Z.pow_1_r by lia.
  rewrite N2Z.inj_div, N2Z.inj_mod.
  pose proof (Z.div_mod (Z.of_N x) 10 ltac:(lia)). lia.
Qed.

Lemma readDigits_pretty (acc : Z) (n : N) :
  ∃ k : Z, 0 ≤ k ∧ readDigits acc (pretty n) = Some (acc * 10 ^ k + Z.of_N n).
Proof.
  unfold pretty, pretty_N. case_decide as Hn.
  - subst n. exists 1. split; [lia|]. simpl.
    change (digit_value "0") with (Some 0). simpl. f_equal. lia.
  - destruct (readDigits_pretty_go n "") as (k & Hk & Hread).
    exists k. split; [done|]. by rewrite Hread.
Qed.

Lemma readUnsigned_pretty (n : N) : readUnsigned (pretty n) = Some (Z.of_N n).
Proof.
  destruct (readDigits_pretty 0 n) as (k & _ & Hread).
  rewrite Z.mul_0_l, Z.add_0_l in Hread.
  unfold readUnsigned. destruct (pretty n) eqn:E; [|done].
  injection Hread as Hn. assert (n = 0%N) as -> by lia. by vm_compute in E.
Qed.

Lemma readIntText_unsigned (s : string) (n : Z) :
  readUnsigned s = Some n → readIntText s = Some n.
Proof.
  destruct s as [|c s]; [done|]. unfold readIntText, readUnsigned. simpl.
  destruct (digit_value c) eqn:E; [|done].
  destruct (decide (c = "-"%char)) as [->|]; [by vm_compute in E|].
  destruct (decide (c = "+"%char)) as [->|]; [by vm_compute in E|].
  done.
Qed.

Lemma readIntText_pretty (z : Z) : readIntText (pretty z) = Some z.
Proof.
  destruct z as [|p|p]; [done|..].
  - apply readIntText_unsigned. apply (readUnsigned_pretty (Npos p)).
  - change (pretty (Z.neg p)) with (String "-" (pretty (Npos p))).
    unfold readIntText. rewrite decide_True by done.
    by rewrite readUnsigned_pretty.
Qed.

(** Every 32-bit integer is read back from its decimal rendering; text that
    spells no such integer reads as 0. *)
Lemma toInt32OrZero_pretty (z : Z) :
  - 2 ^ 31 ≤ z < 2 ^ 31 → toInt32OrZero (pretty z) = z.
Proof.
  intros Hz. unfold toInt32OrZero, toInt32OrNull.
  rewrite readIntText_pretty. simpl. by rewrite decide_True.
Qed.

Lemma toInt32OrZero_range (s : string) : - 2 ^ 31 ≤ toInt32OrZero s < 2 ^ 31.
Proof.
  unfold toInt32OrZero, toInt32OrNull.
  destruct (readIntText s) as [n|]; simpl; [|lia].
  case_decide; simpl; lia.
Qed.

Example toInt32OrZero_examples :
  toInt32OrZero "200" = 200 ∧ toInt32OrZero "-17" = -17 ∧
  toInt32OrZero "+5" = 5 ∧ toInt32OrZero "" = 0 ∧ toInt32OrZero "-" = 0 ∧
  toInt32OrZero "12a" = 0 ∧ toInt32OrZero " 12" = 0 ∧
  toInt32OrZero "2147483647" = 2147483647 ∧ toInt32OrZero "2147483648" = 0 ∧
  toInt32OrZero "-2147483648" = -2147483648.
Proof. by vm_compute. Qed.



End Conversions.

(** ** The materialized view *)

Section ViewFacts.
Import ClickHouse.
Context (parseDate : string → option DateTime) (parseJson : string → option JSON).

Abbreviation mv_select' := (mv_select parseDate parseJson).
Abbreviation mv_app_logs_consume' := (mv_app_logs_consume parseDate parseJson).
Abbreviation transform' := (transform parseDate parseJson).

Lemma transform_select now64 payload topic partition offset timestamp :
  transform' now64 payload topic partition offset timestamp
  = [mv_select' now64
       (src_kafka_app_logs.read_message payload topic partition offset
          timestamp)].
Proof. unfold transform. by rewrite mv_app_logs_consume_map. Qed.

(** C4: the view turns every consumed message into exactly one row.  Its
    [WHERE] clause holds of every message, a block of messages yields as
    many rows as it has messages, and a single raw record, whatever fields
    it has or lacks, yields the one row the [SELECT] list describes. *)
Theorem transform_yields_one_row (now64 : DateTime64) :
  (∀ msg, mv_where parseDate msg = true) ∧
  (∀ block, length (mv_app_logs_consume' now64 block) = length block) ∧
  (∀ payload topic partition offset timestamp,
     transform' now64 payload topic partition offset timestamp
     = [mv_select' now64
          (src_kafka_app_logs.read_message payload topic partition offset
             timestamp)]).
Proof.
  split_and!.
  - apply mv_where_true.
  - intros block. by rewrite mv_app_logs_consume_map, length_fmap.
  - apply transform_select.
Qed.

End ViewFacts.

(** ** More on the engine: what a pass leaves behind *)

Section EnginePasses.
Import MergeTree.
Context {Row Key Ver Part : Type} `{EqDecision Part}.
Context (sorting_key : Row → Key) (key_cmp : Key → Key → comparison).
Context (version : Row → Ver) (ver_cmp : Ver → Ver → comparison).
Context (partition_by : Row → Part) (expired : Z → Row → bool).
Context `{!Ordered key_cmp} `{!Ordered ver_cmp}.

Abbreviation merge_insert' := (merge_insert sorting_key key_cmp version ver_cmp).
Abbreviation replacing_merge' := (replacing_merge sorting_key key_cmp version ver_cmp).
Abbreviation survivor' := (survivor version ver_cmp).
Abbreviation key_lt' := (key_lt sorting_key key_cmp).
Abbreviation merge_partition' :=
  (merge_partition sorting_key key_cmp version ver_cmp partition_by expired).
Abbreviation reconcile' :=
  (reconcile sorting_key key_cmp version ver_cmp partition_by expired).

Lemma survivor_app g sel l1 l2 :
  survivor' g sel (l1 ++ l2) = survivor' g (survivor' g sel l1) l2.
Proof. revert sel. induction l1 as [|r l1 IH]; intros sel; simpl; [done|apply IH]. Qed.

Lemma survivor_no_group g sel l :
  (∀ y, y ∈ l → g y = false) → survivor' g sel l = sel.
Proof.
  revert sel. induction l as [|r l IH]; intros sel Hl; simpl; [done|].
  rewrite (Hl r) by left. apply IH. intros y Hy. apply Hl. by right.
Qed.

Lemma survivor_only_one g l1 z l2 :
  g z = true → (∀ y, y ∈ l1 → g y = false) → (∀ y, y ∈ l2 → g y = false) →
  survivor' g None (l1 ++ z :: l2) = Some z.
Proof.
  intros Hz H1 H2. rewrite survivor_app, (survivor_no_group g None l1) by done.
  simpl. rewrite Hz. simpl. by apply survivor_no_group.
Qed.

(** A row greater than all rows of a part goes to its end. *)
Lemma merge_insert_last r part :
  Forall (λ y, key_lt' y r) part → merge_insert' r part = part ++ [r].
Proof.
  induction 1 as [|h t Hh _ IH]; simpl; [done|].
  unfold MergeTree.key_lt in Hh. apply cmp_gt_lt in Hh; [|done].
  by rewrite Hh, IH.
Qed.

Lemma replacing_merge_from_sorted_id part rows :
  StronglySorted key_lt' (part ++ rows) →
  foldl (λ part r, merge_insert' r part) part rows = part ++ rows.
Proof.
  revert part. induction rows as [|r rows IH]; intros part Hs; simpl.
  { by rewrite app_nil_r. }
  rewrite merge_insert_last.
  - rewrite IH; rewrite <-app_assoc; done.
  - apply StronglySorted_app in Hs as (Hcross & _ & _).
    apply Forall_forall. intros y Hy. apply Hcross; [done|left].
Qed.

(** Merging a part that is already sorted, with one row for each key, gives
    the part back. *)
Lemma replacing_merge_sorted_id rows :
  StronglySorted key_lt' rows → replacing_merge' rows = rows.
Proof. intros Hs. by apply (replacing_merge_from_sorted_id []). Qed.

Lemma StronglySorted_filter_list {A} (R : relation A) (P : A → Prop)
    `{∀ x, Decision (P x)} (l : list A) :
  StronglySorted R l → StronglySorted R (filter P l).
Proof.
  induction 1 as [|x l Hl IH Hx]; [constructor|].
  rewrite filter_cons. case_decide; [|done].
  constructor; [done|]. apply Forall_forall. intros y [_ Hy]%list_elem_of_filter.
  rewrite Forall_forall in Hx. auto.
Qed.

Lemma merge_partition_sorted now rows p :
  StronglySorted key_lt' (merge_partition' now rows p).
Proof.
  unfold MergeTree.merge_partition, MergeTree.ttl_delete.
  apply StronglySorted_filter_list, replacing_merge_sorted; done.
Qed.

Lemma merge_partition_partition now rows p x :
  x ∈ merge_partition' now rows p → partition_by x = p ∧ expired now x = false.
Proof.
  unfold MergeTree.merge_partition, MergeTree.ttl_delete.
  intros [Hexp Hx]%list_elem_of_filter. split; [|done].
  apply replacing_merge_subset in Hx; [|done].
  by apply list_elem_of_filter in Hx as [? _].
Qed.

Lemma filter_all {A} (P : A → Prop) `{∀ x, Decision (P x)} (l : list A) :
  (∀ x, x ∈ l → P x) → filter P l = l.
Proof.
  induction l as [|x l IH]; intros Hl; [done|].
  rewrite filter_cons_True by (apply Hl; left).
  rewrite IH; [done|]. intros y Hy. apply Hl. by right.
Qed.

Lemma filter_none {A} (P : A → Prop) `{∀ x, Decision (P x)} (l : list A) :
  (∀ x, x ∈ l → ¬ P x) → filter P l = [].
Proof.
  induction l as [|x l IH]; intros Hl; [done|].
  rewrite filter_cons_False by (apply Hl; left).
  apply IH. intros y Hy. apply Hl. by right.
Qed.

(** The rows of one partition among the rows of several. *)
Lemma filter_bind_partition (f : Part → list Row) (ps : list Part) (p : Part) :
  NoDup ps → (∀ q x, x ∈ f q → partition_by x = q) →
  filter (λ r, partition_by r = p) (ps ≫= f)
  = if decide (p ∈ ps) then f p else [].
Proof.
  intros Hnd Hf. induction Hnd as [|q ps Hq Hnd IH]; [done|].
  rewrite bind_cons, filter_app, IH.
  destruct (decide (q = p)) as [->|Hne].
  - rewrite (decide_True (P:=p ∈ p :: ps)) by left.
    rewrite (decide_False (P:=p ∈ ps)) by done.
    rewrite app_nil_r. apply filter_all. intros x Hx. eauto.
  - rewrite (filter_none _ (f q)).
    2:{ intros x Hx Hp. apply Hne. by rewrite <-(Hf q x Hx). }
    simpl. destruct (decide (p ∈ ps)) as [Hin|Hnin].
    + rewrite decide_True by by right. done.
    + rewrite decide_False; [done|]. intros [?|?]%elem_of_cons; congruence.
Qed.

Lemma merge_partition_absent now rows p :
  p ∉ partition_ids partition_by rows → merge_partition' now rows p = [].
Proof.
  intros Hp. unfold MergeTree.merge_partition, MergeTree.partition_rows.
  rewrite filter_none; [done|]. intros x Hx Hpx. apply Hp.
  unfold MergeTree.partition_ids. rewrite elem_of_remove_dups, list_elem_of_fmap.
  eauto.
Qed.

(** After a pass, the rows of a partition are its merged part. *)
Lemma partition_rows_reconcile now rows p :
  partition_rows partition_by p (reconcile' now rows) = merge_partition' now rows p.
Proof.
  unfold MergeTree.partition_rows, MergeTree.reconcile.
  rewrite filter_bind_partition.
  - case_decide; [done|]. by rewrite merge_partition_absent.
  - apply NoDup_remove_dups.
  - intros q x Hx. by apply merge_partition_partition in Hx as [? _].
Qed.

Lemma ttl_delete_later now1 now2 (l : list Row) :
  (∀ r, expired now2 r = false → expired now1 r = false) →
  ttl_delete expired now2 (ttl_delete expired now1 l) = ttl_delete expired now2 l.
Proof.
  intros Hmono. unfold MergeTree.ttl_delete. rewrite list_filter_filter.
  apply list_filter_iff. intros r. split; [by intros [? _]|auto].
Qed.

Lemma merge_partition_reconcile now1 now2 rows p :
  (∀ r, expired now2 r = false → expired now1 r = false) →
  merge_partition' now2 (reconcile' now1 rows) p = merge_partition' now2 rows p.
Proof.
  intros Hmono. unfold MergeTree.merge_partition at 1.
  rewrite partition_rows_reconcile.
  rewrite replacing_merge_sorted_id by apply merge_partition_sorted.
  unfold MergeTree.merge_partition. by apply ttl_delete_later.
Qed.

Lemma remove_dups_cons {A} `{EqDecision A} (x : A) (l : list A) :
  remove_dups (x :: l) = if decide (x ∈ l) then remove_dups l else x :: remove_dups l.
Proof. reflexivity. Qed.

(** The partitions of rows that are listed partition by partition. *)
Lemma remove_dups_bind_partition (f : Part → list Row) (ps : list Part) :
  NoDup ps → (∀ q x, x ∈ f q → partition_by x = q) →
  remove_dups (partition_by <$> (ps ≫= f)) = filter (λ p, f p ≠ []) ps.
Proof.
  intros Hnd Hf. induction Hnd as [|q ps Hq Hnd IH]; [done|].
  rewrite bind_cons, fmap_app, filter_cons.
  assert (q ∉ partition_by <$> (ps ≫= f)) as Hfresh.
  { intros (z & Hz & Hin)%list_elem_of_fmap.
    apply list_elem_of_bind in Hin as (p & Hzp & Hp).
    apply Hq. by rewrite Hz, (Hf p z Hzp). }
  assert (∀ l, (∀ x, x ∈ l → partition_by x = q) →
    remove_dups ((partition_by <$> l) ++ (partition_by <$> (ps ≫= f)))
    = if decide (l ≠ []) then q :: filter (λ p, f p ≠ []) ps
      else filter (λ p, f p ≠ []) ps) as Hl.
  { intros l. induction l as [|x l IHl]; intros Hq'.
    - rewrite decide_False by (by intros []). exact IH.
    - rewrite decide_True by done.
      rewrite fmap_cons, <-app_comm_cons, remove_dups_cons, (Hq' x) by left.
      rewrite IHl by (intros y Hy; apply Hq'; by right).
      destruct l as [|y l].
      + destruct (decide (q ∈ _)) as [Hin|_]; [by destruct Hfresh|].
        by rewrite decide_False by (intros Hne; by apply Hne).
      + rewrite (decide_True (P:=y :: l ≠ [])) by done.
        rewrite decide_True; [done|].
        rewrite fmap_cons, (Hq' y) by (right; left). left. }
  rewrite (Hl (f q)) by (intros x Hx; by apply Hf).
  by repeat case_decide.
Qed.

Lemma bind_filter_nonempty (f g : Part → list Row) (ps : list Part) :
  (∀ p, f p = [] → g p = []) →
  filter (λ p, f p ≠ []) ps ≫= g = ps ≫= g.
Proof.
  intros Hfg. induction ps as [|q ps IH]; [done|].
  rewrite filter_cons, bind_cons. case_decide as Hq.
  - by rewrite bind_cons, IH.
  - rewrite IH. by rewrite (Hfg q Hq).
Qed.

Lemma bind_ext_list (f g : Part → list Row) (ps : list Part) :
  (∀ p, f p = g p) → ps ≫= f = ps ≫= g.
Proof.
  intros Hfg. induction ps as [|q ps IH]; [done|]. by rewrite !bind_cons, Hfg, IH.
Qed.

(** A pass followed by a pass at a time by which nothing has come back from
    expiry is the later pass alone. *)
Lemma reconcile_later now1 now2 rows :
  (∀ r, expired now2 r = false → expired now1 r = false) →
  reconcile' now2 (reconcile' now1 rows) = reconcile' now2 rows.
Proof.
  intros Hmono. unfold MergeTree.reconcile at 1.
  rewrite (bind_ext_list _ (merge_partition' now2 rows))
    by (intros p; by apply merge_partition_reconcile).
  unfold MergeTree.partition_ids at 1. unfold MergeTree.reconcile at 1.
  rewrite remove_dups_bind_partition.
  - apply bind_filter_nonempty. intros p Hp.
    unfold MergeTree.merge_partition in *.
    rewrite <-(ttl_delete_later now1 now2) by done. by rewrite Hp.
  - apply NoDup_remove_dups.
  - intros q x Hx. by apply merge_partition_partition in Hx as [? _].
Qed.

End EnginePasses.

(** ** More on the fact table: passes over [fact_app_log] *)

Section PassFacts.
Import ClickHouse fact_app_log.

Abbreviation row_survivor := (MergeTree.survivor version ver_cmp).
Abbreviation row_group r :=
  (MergeTree.in_group sorting_key key_cmp partition_by (partition_by r) (sorting_key r)).

Lemma expired_later now1 now2 r :
  now1 ≤ now2 → expired now2 r = false → expired now1 r = false.
Proof. rewrite !expired_false. lia. Qed.

Lemma row_group_eq x z :
  sorting_key z = sorting_key x → row_group z = row_group x.
Proof. intros Hk. by rewrite (sorting_key_partition z x Hk), Hk. Qed.

(** The survivor of a group that is not expired is still its survivor after
    a pass. *)
Lemma survivor_reconcile now table x :
  expired now x = false →
  row_survivor (row_group x) None (reconcile now table)
  = row_survivor (row_group x) None table.
Proof.
  intros Hx. destruct (row_survivor (row_group x) None table) as [z|] eqn:E.
  - apply survivor_None_spec in E as Hspec; [|apply _].
    destruct Hspec as (_ & _ & _ & Hkz%fact_group_true & _).
    assert (z ∈ reconcile now table) as Hz.
    { apply elem_of_fact_reconcile. split.
      - apply expired_false. by rewrite (sorting_key_expired now z x Hkz).
      - by rewrite (row_group_eq x z Hkz). }
    pose proof (NoDup_reconcile sorting_key key_cmp version ver_cmp partition_by
                  expired now table) as Hnd.
    fold (reconcile now table) in Hnd.
    destruct (list_elem_of_split _ _ Hz) as (l1 & l2 & Hsplit).
    rewrite Hsplit in Hnd. apply NoDup_app in Hnd as (_ & Hl1 & Hl2%NoDup_cons).
    assert (∀ y, y ∈ reconcile now table → row_group x y = true → y = z) as Hone.
    { intros y Hy Hg%fact_group_true.
      apply (reconcile_one_per_group sorting_key key_cmp version ver_cmp
               partition_by expired now table); [done..| |].
      - apply sorting_key_partition. congruence.
      - congruence. }
    rewrite Hsplit. apply survivor_only_one.
    + by apply fact_group_true.
    + intros y Hy. destruct (row_group x y) eqn:Hg; [|done].
      assert (y = z) as ->.
      { apply Hone; [|done]. rewrite Hsplit, elem_of_app. auto. }
      destruct (Hl1 z Hy). left.
    + intros y Hy. destruct (row_group x y) eqn:Hg; [|done].
      assert (y = z) as ->.
      { apply Hone; [|done]. rewrite Hsplit, elem_of_app, elem_of_cons. auto. }
      by destruct Hl2 as [[] _].
  - apply survivor_no_group. intros y Hy%fact_reconcile_subset.
    destruct (row_group x y) eqn:Hg; [|done].
    destruct (survivor_is_Some version ver_cmp (row_group x) None table) as [z Hz];
      [eauto|congruence].
Qed.

(** X1: after a pass the table holds, for every row that was resident,
    exactly one row with its ordering key [(date, app, host, ts)] if the row
    is within its retention, and none if it is past it. *)
Theorem pass_leaves_one_row_per_key (now : DateTime) (table : list row) (r : row) :
  r ∈ table →
  length (filter (λ y, sorting_key y = sorting_key r) (reconcile now table))
  = if expired now r then 0%nat else 1%nat.
Proof.
  intros Hr. destruct (expired now r) eqn:Hexp.
  - rewrite filter_none; [done|].
    intros y [Hy _]%elem_of_fact_reconcile Hk.
    apply expired_false in Hy. rewrite (sorting_key_expired now y r Hk) in Hy.
    congruence.
  - destruct (survivor_is_Some version ver_cmp (row_group r) None table) as [x Hx].
    { right. exists r. split; [done|by apply fact_group_true]. }
    apply survivor_None_spec in Hx as Hspec; [|apply _].
    destruct Hspec as (_ & _ & _ & Hkx%fact_group_true & _).
    assert (x ∈ reconcile now table) as Hxin.
    { apply elem_of_fact_reconcile. split.
      - apply expired_false. by rewrite (sorting_key_expired now x r Hkx).
      - by rewrite (row_group_eq r x Hkx). }
    apply (NoDup_all_eq _ x).
    + apply NoDup_filter. unfold reconcile. apply NoDup_reconcile; apply _.
    + by apply list_elem_of_filter.
    + intros y [Hky Hy]%list_elem_of_filter.
      apply (reconcile_one_per_group sorting_key key_cmp version ver_cmp
               partition_by expired now table); [done..| |].
      * apply sorting_key_partition. congruence.
      * congruence.
Qed.

Lemma pass_leaves_one_row_per_key_witness :
  length
    (filter
       (λ y, sorting_key y
             = sorting_key (example_row (toDateTime64 new_year) "3-10" 1704067200100))
       (reconcile (new_year + 60)
          [example_row (toDateTime64 new_year) "3-10" 1704067200100;
           example_row (toDateTime64 new_year) "3-11" 1704067200100;
           example_row (toDateTime64 new_year + 1) "3-12" 1704067200100]))
  = 1%nat.
Proof.
  apply (pass_leaves_one_row_per_key (new_year + 60)
           [example_row (toDateTime64 new_year) "3-10" 1704067200100;
            example_row (toDateTime64 new_year) "3-11" 1704067200100;
            example_row (toDateTime64 new_year + 1) "3-12" 1704067200100]
           (example_row (toDateTime64 new_year) "3-10" 1704067200100)).
  left.
Defined.

(** X2: a pass only removes rows.  Every row left by it was resident, no row
    is left twice, and the table does not grow. *)
Theorem pass_only_removes_rows (now : DateTime) (table : list row) :
  (∀ r, r ∈ reconcile now table → r ∈ table) ∧
  NoDup (reconcile now table) ∧
  (length (reconcile now table) ≤ length table)%nat.
Proof.
  assert (NoDup (reconcile now table)) as Hnd.
  { unfold reconcile. apply NoDup_reconcile; apply _. }
  split_and!; [apply fact_reconcile_subset|done|].
  apply submseteq_length, NoDup_submseteq; [done|apply fact_reconcile_subset].
Qed.

(** X3: the row a pass keeps for an ordering key has a dedup token that no
    resident row with that key exceeds, whatever the total order is by which
    the engine ranks the values of its version column. *)
Theorem survivor_has_greatest_token (token_cmp : string → string → comparison)
    `{!MergeTree.Ordered token_cmp} (now : DateTime) (table : list row)
    (r y : row) :
  r ∈ MergeTree.reconcile sorting_key key_cmp dedup_token token_cmp
        partition_by expired now table →
  y ∈ table → sorting_key y = sorting_key r →
  token_cmp (dedup_token y) (dedup_token r) ≠ Gt.
Proof.
  intros [_ Hs]%elem_of_reconcile Hy Hk; [|apply _..].
  apply survivor_None_spec in Hs as (l1 & l2 & -> & _ & Hl1 & Hl2); [|apply _].
  apply fact_group_true in Hk.
  apply elem_of_app in Hy as [Hy|[->|Hy]%elem_of_cons].
  - by apply Hl1.
  - by rewrite (cmp_refl token_cmp).
  - specialize (Hl2 y Hy Hk). unfold MergeTree.ver_lt in Hl2. by rewrite Hl2.
Qed.

Lemma survivor_has_greatest_token_witness :
  String.compare
    (dedup_token (example_row (toDateTime64 new_year) "3-10" 1704067230500))
    (dedup_token (example_row (toDateTime64 new_year) "3-11" 1704067200100))
  ≠ Gt.
Proof.
  apply (survivor_has_greatest_token String.compare (new_year + 60)
           [example_row (toDateTime64 new_year) "3-10" 1704067200100;
            example_row (toDateTime64 new_year) "3-11" 1704067200100;
            example_row (toDateTime64 new_year) "3-10" 1704067230500]).
  - vm_compute. left.
  - do 2 right. left.
  - reflexivity.
Defined.

(** X4: after a pass the rows of every partition are in strictly increasing
    order of [(date, app, host, ts)]. *)
Theorem pass_sorts_each_partition (now : DateTime) (table : list row) (p : Z) :
  StronglySorted (λ a b, key_cmp (sorting_key a) (sorting_key b) = Lt)
    (filter (λ r, partition_by r = p) (reconcile now table)).
Proof.
  unfold reconcile.
  pose proof (partition_rows_reconcile sorting_key key_cmp version ver_cmp
                partition_by expired now table p) as Hp.
  unfold MergeTree.partition_rows in Hp. rewrite Hp.
  apply (merge_partition_sorted sorting_key key_cmp version ver_cmp
           partition_by expired).
Qed.

(** X5: passes compose.  A pass at [now1] followed by a pass at a later time
    [now2] leaves the very table that a single pass at [now2] leaves; in
    particular a second pass at the same time changes nothing. *)
Theorem later_pass_absorbs_earlier (now1 now2 : DateTime) (table : list row) :
  now1 ≤ now2 →
  reconcile now2 (reconcile now1 table) = reconcile now2 table.
Proof.
  intros Hle. unfold reconcile. apply reconcile_later; [apply _..|].
  intros r. by apply expired_later.
Qed.

Lemma later_pass_absorbs_earlier_witness :
  reconcile (new_year + 60)
    (reconcile (new_year + 60)
       [example_row (toDateTime64 new_year) "3-10" 1704067200100;
        example_row (toDateTime64 new_year) "3-11" 1704067200100])
  = reconcile (new_year + 60)
      [example_row (toDateTime64 new_year) "3-10" 1704067200100;
       example_row (toDateTime64 new_year) "3-11" 1704067200100].
Proof. apply later_pass_absorbs_earlier. lia. Defined.

(** X6: when the parts are merged does not matter.  Rows written after a pass
    and then merged by a later pass leave the same rows as if all had been
    written first and merged by the later pass alone. *)
Theorem early_merge_is_harmless (now1 now2 : DateTime) (table block : list row) :
  now1 ≤ now2 →
  reconcile now2 (insert block (reconcile now1 table))
  ≡ₚ reconcile now2 (insert block table).
Proof.
  intros Hle. unfold insert.
  apply NoDup_Permutation;
    [unfold reconcile; apply NoDup_reconcile; apply _..|].
  intros x. rewrite !elem_of_fact_reconcile.
  split; intros [Hnow Hs]; (split; [done|]);
    rewrite survivor_app in Hs |- *;
    rewrite survivor_reconcile in *; try done;
    apply (expired_later now1 now2); try done; by apply expired_false.
Qed.

Lemma early_merge_is_harmless_witness :
  reconcile (new_year + 120)
    (insert [example_row (toDateTime64 new_year) "3-10" 1704067230500]
       (reconcile (new_year + 60)
          [example_row (toDateTime64 new_year) "3-10" 1704067200100;
           example_row (toDateTime64 new_year) "3-11" 1704067200100]))
  ≡ₚ reconcile (new_year + 120)
       (insert [example_row (toDateTime64 new_year) "3-10" 1704067230500]
          [example_row (toDateTime64 new_year) "3-10" 1704067200100;
           example_row (toDateTime64 new_year) "3-11" 1704067200100]).
Proof. apply early_merge_is_harmless. lia. Defined.

End PassFacts.

(** ** More on the Lua filter *)

Section LuaMore.
Import Lua.
Context {number : Type} (tostring : number → string).

Abbreviation make_key' := (Lua.make_key tostring).
Abbreviation field_text' := (Lua.field_text tostring).

Lemma field_text_None (v : option (value number)) sentinel :
  field_text' v sentinel = None ↔ unconcatenable v.
Proof.
  unfold unconcatenable. split.
  - destruct v as [[[]| | |t]|]; simpl; try done; eauto.
  - by intros [->|[t ->]].
Qed.

Lemma tostr_field_text (v : option (value number)) sentinel :
  Lua.tostr tostring (lua_or v (LString sentinel)) = field_text' v sentinel.
Proof. destruct v as [[[]| | |]|]; reflexivity. Qed.

Lemma lua_or_unconcatenable (v : option (value number)) sentinel :
  unconcatenable v → v = Some (lua_or v (LString sentinel)).
Proof. by intros [->|[t ->]]. Qed.

(** X7: [make_key] raises exactly when the [app] field, or else the [host]
    field, is [true] or a table; the value reported is that field's, [app]
    being looked at first. *)
Theorem make_key_raises_iff (tag ts : value number)
    (record : gmap string (value number)) (bad : value number) :
  make_key' tag ts record = Raise bad ↔
  (unconcatenable (record !! "app") ∧ record !! "app" = Some bad) ∨
  (¬ unconcatenable (record !! "app") ∧
   unconcatenable (record !! "host") ∧ record !! "host" = Some bad).
Proof.
  unfold Lua.make_key, Lua.concat. simpl.
  rewrite !tostr_field_text.
  destruct (field_text' (record !! "app") "unknown-app") as [a|] eqn:Ea.
  - assert (¬ unconcatenable (record !! "app")) as Hna.
    { rewrite <-(field_text_None _ "unknown-app"). congruence. }
    destruct (field_text' (record !! "host") "unknown-host") as [h|] eqn:Eh.
    + assert (¬ unconcatenable (record !! "host")) as Hnh.
      { rewrite <-(field_text_None _ "unknown-host"). congruence. }
      split; [done|]. intros [[? _]|(_ & ? & _)]; done.
    + apply field_text_None in Eh.
      pose proof (lua_or_unconcatenable _ "unknown-host" Eh) as Hv.
      split.
      * intros [= <-]. right. done.
      * intros [[? _]|(_ & _ & Hb)]; [done|]. simpl. congruence.
  - apply field_text_None in Ea.
    pose proof (lua_or_unconcatenable _ "unknown-app" Ea) as Hv.
    split.
    + intros [= <-]. left. done.
    + intros [[_ Hb]|[? _]]; [simpl; congruence|done].
Qed.

(** X8: a ["key"] field that the record already has is never read and always
    replaced: the outcome is the one for the record without it. *)
Theorem make_key_ignores_stale_key (tag ts v : value number)
    (record : gmap string (value number)) :
  make_key' tag ts (<["key" := v]> record) = make_key' tag ts record.
Proof.
  unfold Lua.make_key. rewrite !lookup_insert_ne by done.
  destruct (Lua.concat _ _ _) as [tail|]; [|done].
  destruct (Lua.concat _ _ tail) as [key|]; [|done].
  by rewrite insert_insert_eq.
Qed.

(** X9: the filter can be applied again to its own output: the record it
    returned is returned unchanged. *)
Theorem make_key_twice (tag ts tag' ts' : value number)
    (record record1 : gmap string (value number)) (code : Z) (ts1 : value number) :
  make_key' tag ts record = Return code ts1 record1 →
  make_key' tag' ts' record1 = Return 1 ts' record1.
Proof.
  intros (h & a & Hh & Ha & _ & _ & ->)%make_key_inv.
  rewrite (make_key_returns tostring tag' ts' _ h a);
    rewrite ?lookup_insert_ne by done; try done.
  by rewrite insert_insert_eq.
Qed.

End LuaMore.

Lemma make_key_twice_witness :
  Lua.make_key (pretty : Z → string) (Lua.LString "app.log")
    (Lua.LNumber 1704067201)
    (<["key" := Lua.LString "h1:a1"]>
       {[ "host" := Lua.LString "h1"; "app" := Lua.LString "a1" ]})
  = Lua.Return 1 (Lua.LNumber 1704067201)
      (<["key" := Lua.LString "h1:a1"]>
         {[ "host" := Lua.LString "h1"; "app" := Lua.LString "a1" ]}).
Proof.
  apply (make_key_twice (pretty : Z → string) (Lua.LString "app.log")
           (Lua.LNumber 1704067200) (Lua.LString "app.log")
           (Lua.LNumber 1704067201)
           {[ "host" := Lua.LString "h1"; "app" := Lua.LString "a1" ]} _ 1
           (Lua.LNumber 1704067200)).
  vm_compute. reflexivity.
Defined.

(** ** Keys and tokens as text *)

Section Separators.
Import ClickHouse.

(** Text without the separator, the separator, and more text: the two parts
    can be told apart. *)
Lemma append_sep_inj (c : Ascii.ascii) (s1 s2 t1 t2 : string) :
  contains c s1 = false → contains c t1 = false →
  s1 +:+ String c s2 = t1 +:+ String c t2 → s1 = t1 ∧ s2 = t2.
Proof.
  revert t1. induction s1 as [|d s1 IH]; intros [|e t1]; cbn.
  - by intros _ _ [= ->].
  - intros _ [He _]%orb_false_elim [= <- _].
    by apply bool_decide_eq_false in He.
  - intros [Hd _]%orb_false_elim _ [= -> _].
    by apply bool_decide_eq_false in Hd.
  - intros [_ Hs]%orb_false_elim [_ Ht]%orb_false_elim [= <- Heq].
    by destruct (IH t1 Hs Ht Heq) as [-> ->].
Qed.

(** X10: the key tells host and service apart as long as host names have no
    colon.  If [make_key] gives two records the same key and neither host
    text contains [":"], the records agree on host and on app. *)
Theorem key_determines_host_and_app {number : Type} (tostring : number → string)
    (tag1 ts1 tag2 ts2 : Lua.value number)
    (record1 record2 : gmap string (Lua.value number)) (h1 a1 h2 a2 : string) :
  Lua.field_text tostring (record1 !! "host") "unknown-host" = Some h1 →
  Lua.field_text tostring (record1 !! "app") "unknown-app" = Some a1 →
  Lua.field_text tostring (record2 !! "host") "unknown-host" = Some h2 →
  Lua.field_text tostring (record2 !! "app") "unknown-app" = Some a2 →
  contains ":" h1 = false → contains ":" h2 = false →
  (∃ key,
     Lua.make_key tostring tag1 ts1 record1
     = Lua.Return 1 ts1 (<["key" := key]> record1) ∧
     Lua.make_key tostring tag2 ts2 record2
     = Lua.Return 1 ts2 (<["key" := key]> record2)) →
  h1 = h2 ∧ a1 = a2.
Proof.
  intros Hh1 Ha1 Hh2 Ha2 Hc1 Hc2 (key & Hk1 & Hk2).
  rewrite (make_key_returns tostring _ _ _ h1 a1) in Hk1 by done.
  rewrite (make_key_returns tostring _ _ _ h2 a2) in Hk2 by done.
  apply (f_equal (λ o, match o with
                       | Lua.Return _ _ r => r !! "key"
                       | Lua.Raise _ => None
                       end)) in Hk1, Hk2.
  rewrite !lookup_insert_eq in Hk1, Hk2.
  assert (h1 +:+ ":" +:+ a1 = h2 +:+ ":" +:+ a2) as Heq by congruence.
  by apply (append_sep_inj ":" h1 a1 h2 a2).
Qed.

Lemma key_determines_host_and_app_witness : "h1" = "h1" ∧ "a1" = "a1".
Proof.
  apply (key_determines_host_and_app (pretty : Z → string)
           (Lua.LString "a.log") (Lua.LNumber 1) (Lua.LString "b.log")
           (Lua.LNumber 2)
           {[ "host" := Lua.LString "h1"; "app" := Lua.LString "a1" ]}
           {[ "host" := Lua.LString "h1"; "app" := Lua.LString "a1";
              "log" := Lua.LString "started" ]}
           "h1" "a1" "h1" "a1");
    try (vm_compute; reflexivity).
  exists (Lua.LString "h1:a1"). split; vm_compute; reflexivity.
Defined.

(** With a colon in the host the key no longer tells: host ["a:b"] with app
    ["c"] and host ["a"] with app ["b:c"] get the same key. *)
Example key_collision :
  Lua.make_key (pretty : Z → string) (Lua.LString "a.log") (Lua.LNumber 1)
    {[ "host" := Lua.LString "a:b"; "app" := Lua.LString "c" ]}
  = Lua.Return 1 (Lua.LNumber 1)
      (<["key" := Lua.LString "a:b:c"]>
         {[ "host" := Lua.LString "a:b"; "app" := Lua.LString "c" ]}) ∧
  Lua.make_key (pretty : Z → string) (Lua.LString "a.log") (Lua.LNumber 1)
    {[ "host" := Lua.LString "a"; "app" := Lua.LString "b:c" ]}
  = Lua.Return 1 (Lua.LNumber 1)
      (<["key" := Lua.LString "a:b:c"]>
         {[ "host" := Lua.LString "a"; "app" := Lua.LString "b:c" ]}).
Proof. split; vm_compute; reflexivity. Qed.



(** Text with a character that is no digit, other than a sign in front, is no
    number. *)
Lemma readDigits_non_digit (acc : Z) (pre : string) (c : Ascii.ascii) (post : string) :
  digit_value c = None → readDigits acc (pre +:+ String c post) = None.
Proof.
  intros Hc. revert acc. induction pre as [|d pre IH]; intros acc.
  - change (readDigits acc (String c post) = None).
    cbn [readDigits]. by rewrite Hc.
  - change (readDigits acc (String d (pre +:+ String c post)) = None).
    cbn [readDigits]. destruct (digit_value d); [apply IH|done].
Qed.

Lemma readUnsigned_non_digit (pre : string) (c : Ascii.ascii) (post : string) :
  digit_value c = None → readUnsigned (pre +:+ String c post) = None.
Proof.
  intros Hc. unfold readUnsigned.
  rewrite (readDigits_non_digit 0 pre c post Hc). by destruct (pre +:+ _).
Qed.

(** X12: what [toInt32OrZero] makes of the text of a number: a 32-bit integer
    is read back from its decimal rendering, and the rendering of any other
    integer reads as 0. *)
Theorem toInt32OrZero_of_decimal (z : Z) :
  toInt32OrZero (pretty z) = if decide (- 2 ^ 31 ≤ z < 2 ^ 31) then z else 0.
Proof.
  unfold toInt32OrZero, toInt32OrNull. rewrite readIntText_pretty. simpl.
  by case_decide.
Qed.

(** X13: text that is no number reads as 0: any character that is not a digit
    makes [toInt32OrZero] give 0, unless it is a sign and stands in front. *)
Theorem toInt32OrZero_of_non_number (pre : string) (c : Ascii.ascii) (post : string) :
  digit_value c = None →
  pre ≠ "" ∨ (c ≠ "-"%char ∧ c ≠ "+"%char) →
  toInt32OrZero (pre +:+ String c post) = 0.
Proof.
  intros Hc Hpos. unfold toInt32OrZero, toInt32OrNull.
  assert (readIntText (pre +:+ String c post) = None) as ->; [|done].
  destruct pre as [|d pre].
  - change (readIntText (String c post) = None). unfold readIntText.
    destruct Hpos as [?|[Hm Hp]]; [done|].
    rewrite !decide_False by done.
    apply (readUnsigned_non_digit "" c post Hc).
  - change (readIntText (String d (pre +:+ String c post)) = None).
    unfold readIntText. repeat case_decide.
    + by rewrite readUnsigned_non_digit.
    + by rewrite readUnsigned_non_digit.
    + apply (readUnsigned_non_digit (String d pre) c post Hc).
Qed.

Lemma toInt32OrZero_of_non_number_witness : toInt32OrZero ("20" +:+ String "x" "0") = 0.
Proof.
  apply (toInt32OrZero_of_non_number "20" "x" "0").
  - vm_compute. reflexivity.
  - left. discriminate.
Defined.

End Separators.

(** ** The view on raw records *)

Lemma readIntText_non_number (pre : string) (c : Ascii.ascii) (post : string) :
  ClickHouse.digit_value c = None →
  pre ≠ "" ∨ (c ≠ "-"%char ∧ c ≠ "+"%char) →
  ClickHouse.readIntText (pre +:+ String c post) = None.
Proof.
  intros Hc Hpos. destruct pre as [|d pre].
  - change (ClickHouse.readIntText (String c post) = None).
    unfold ClickHouse.readIntText.
    destruct Hpos as [?|[Hm Hp]]; [done|].
    rewrite !decide_False by done.
    apply (readUnsigned_non_digit "" c post Hc).
  - change (ClickHouse.readIntText (String d (pre +:+ String c post)) = None).
    unfold ClickHouse.readIntText. repeat case_decide.
    + by rewrite readUnsigned_non_digit.
    + by rewrite readUnsigned_non_digit.
    + apply (readUnsigned_non_digit (String d pre) c post Hc).
Qed.

Section RecordFacts.
Import ClickHouse.
Context (parseDate : string → option DateTime) (parseJson : string → option JSON).

(** The position a message is consumed from and its Kafka timestamp are not
    read. *)
Lemma transform_position now64 payload topic partition offset timestamp
    topic' partition' offset' timestamp' :
  transform parseDate parseJson now64 payload topic' partition' offset' timestamp'
  = transform parseDate parseJson now64 payload topic partition offset timestamp.
Proof. reflexivity. Qed.

(** X14: what a message gets for the fields it lacks.  Without a [ts] field
    the timestamp of the row is the [_timestamp] field of the message, and
    the epoch when it has none either, provided the date parser does not
    read the empty string as a date; such a row of the epoch is removed by
    every pass, fourteen days being long over.  Without a [code] field the
    code is 0. *)
Theorem missing_fields_fall_back (now64 : DateTime64) (payload : JSONEachRow.object)
    (topic : string) (partition offset : N) (timestamp : DateTime) :
  parseDate "" = None →
  ∃ row,
    transform parseDate parseJson now64 payload topic partition offset timestamp
    = [row] ∧
    (JSONEachRow.ts payload = None →
     fact_app_log.ts row
     = toDateTime64 (default 0 (JSONEachRow._timestamp payload))) ∧
    (JSONEachRow.ts payload = None → JSONEachRow._timestamp payload = None →
     ∀ now table, 14 * 86400 ≤ now →
       row ∉ fact_app_log.reconcile now (fact_app_log.insert [row] table)) ∧
    (JSONEachRow.code payload = None → fact_app_log.code row = 0).
Proof.
  intros Hparse. eexists. split; [apply transform_select|]. split_and!.
  - intros Hts. simpl. rewrite Hts. simpl. by rewrite Hparse.
  - intros Hts Hstamp now table Hnow [Hexp _]%elem_of_fact_reconcile.
    revert Hexp. unfold fact_app_log.ttl. simpl.
    rewrite Hts, Hstamp. simpl. rewrite Hparse. simpl.
    unfold toDateTime, toDateTime64. simpl.
    change ((0 * 1000 + 14 * 86400 * 1000) `div` 1000) with (14 * 86400). lia.
  - intros Hcode. simpl. by rewrite Hcode.
Qed.

(** C5: the fallbacks of the row of a raw record.  Its code is the 32-bit
    integer the [code] field spells and 0 when the field is missing or
    spells none; its attrs are the parsed [attrs] field and the empty
    structure when that does not parse; its timestamp is the parsed [ts]
    field when that parses.  When it does not, the timestamp is not the
    receipt timestamp of the message: it is the [_timestamp] field of the
    record, and the epoch when the record has none.  The record of the
    scenario with a [ts] that is no date, received on 2024-01-01, gets the
    timestamp 0. *)
Theorem transform_fallbacks (now64 : DateTime64) (payload : JSONEachRow.object)
    (topic : string) (partition offset : N) (timestamp : DateTime) :
  (∃ row,
     transform parseDate parseJson now64 payload topic partition offset timestamp
     = [row] ∧
     fact_app_log.ts row
     = toDateTime64
         match parseDate (default "" (JSONEachRow.ts payload)) with
         | Some t => t
         | None => default 0 (JSONEachRow._timestamp payload)
         end ∧
     (∀ z, JSONEachRow.code payload = Some (pretty z) →
        fact_app_log.code row
        = if decide (- 2 ^ 31 ≤ z < 2 ^ 31) then z else 0) ∧
     (JSONEachRow.code payload = None → fact_app_log.code row = 0) ∧
     (∀ pre c post,
        JSONEachRow.code payload = Some (pre +:+ String c post) →
        digit_value c = None → pre ≠ "" ∨ (c ≠ "-"%char ∧ c ≠ "+"%char) →
        fact_app_log.code row = 0) ∧
     fact_app_log.attrs row
     = match parseJson (default "" (JSONEachRow.attrs payload)) with
       | Some j => j
       | None => JObject []
       end) ∧
  fact_app_log.ts <$>
    transform example_parseDateTime example_parseJson 1704067200100
      example_payload_undated "app_logs.prod" 3 10 new_year
  = [0] ∧
  ¬ falls_back_to_receipt_timestamp example_parseDateTime example_parseJson.
Proof.
  split_and!.
  - eexists. split; [apply transform_select|]. split_and!.
    + simpl. unfold coalesce. by destruct (parseDate _).
    + intros z Hcode. simpl. rewrite Hcode. simpl.
      unfold toInt32OrZero, toInt32OrNull. rewrite readIntText_pretty. simpl.
      by case_decide.
    + intros Hcode. simpl. by rewrite Hcode.
    + intros pre c post Hcode Hc Hpos. simpl. rewrite Hcode. simpl.
      unfold toInt32OrZero, toInt32OrNull.
      by rewrite readIntText_non_number.
    + simpl. unfold tryParseJson, emptyJSON. by destruct (parseJson _).
  - by vm_compute.
  - intros Hclaim.
    specialize (Hclaim 1704067200100 example_payload_undated "app_logs.prod"
                  3%N 10%N new_year eq_refl).
    assert (fact_app_log.ts <$>
      transform example_parseDateTime example_parseJson 1704067200100
        example_payload_undated "app_logs.prod" 3 10 new_year = [0]) as Hts
      by (vm_compute; reflexivity).
    rewrite Hts in Hclaim. discriminate Hclaim.
Qed.

(** The scenario of the specification: the record is delivered at partition 3,
    offset 10. *)
Example transform_scenario :
  transform example_parseDateTime example_parseJson 1704067200100
    example_payload "app_logs.prod" 3 10 new_year
  = [ {| fact_app_log.ts := 1704067200000; fact_app_log.level := "";
         fact_app_log.env := ""; fact_app_log.app := "a1";
         fact_app_log.host := "h1"; fact_app_log.code := 200;
         fact_app_log.message := ""; fact_app_log.attrs := JObject [];
         fact_app_log.dedup_token := "0-0";
         fact_app_log.ingest_time := 1704067200100 |} ].
Proof. by vm_compute. Qed.

(** C6: the dedup token of the row is not derived from the position of the
    message.  It is the decimal rendering of the [_partition] field of the
    record, a hyphen and that of its [_offset] field, each 0 when the record
    has no such field; the partition and the offset the message is consumed
    from change nothing.  The record of the scenario, delivered at
    partition 3 and offset 10, gets the token ["0-0"]. *)
Theorem dedup_token_ignores_position (now64 : DateTime64)
    (payload : JSONEachRow.object) (topic : string) (partition offset : N)
    (timestamp : DateTime) :
  fact_app_log.dedup_token <$>
    transform parseDate parseJson now64 payload topic partition offset timestamp
  = [pretty (default 0%N (JSONEachRow._partition payload)) +:+ "-" +:+
     pretty (default 0%N (JSONEachRow._offset payload))] ∧
  (∀ topic' partition' offset' timestamp',
     transform parseDate parseJson now64 payload topic' partition' offset'
       timestamp'
     = transform parseDate parseJson now64 payload topic partition offset
         timestamp) ∧
  fact_app_log.dedup_token <$>
    transform example_parseDateTime example_parseJson 1704067200100
      example_payload "app_logs.prod" 3 10 new_year
  = ["0-0"] ∧
  ¬ token_of_position parseDate parseJson.
Proof.
  split_and!.
  - by rewrite transform_select.
  - intros. apply transform_position.
  - by vm_compute.
  - intros Hclaim.
    specialize (Hclaim now64 example_payload "app_logs.prod" 3%N 10%N new_year).
    rewrite transform_select in Hclaim.
    assert (pretty 3%N +:+ "-" +:+ pretty 10%N = "3-10") as Htok
      by (vm_compute; reflexivity).
    rewrite Htok in Hclaim. discriminate Hclaim.
Qed.

End RecordFacts.

Lemma missing_fields_fall_back_witness :
  ∃ row,
    transform example_parseDateTime example_parseJson 1704067200100
      {| JSONEachRow.ts := None; JSONEachRow.level := None;
         JSONEachRow.env := None; JSONEachRow.app := None;
         JSONEachRow.host := Some "h1"; JSONEachRow.code := None;
         JSONEachRow.message := Some "started"; JSONEachRow.attrs := None;
         JSONEachRow._topic := None; JSONEachRow._offset := None;
         JSONEachRow._partition := None; JSONEachRow._timestamp := None |}
      "app_logs.prod" 3 10 new_year
    = [row] ∧
    fact_app_log.ts row = 0 ∧
    (∀ now table, 14 * 86400 ≤ now →
       row ∉ fact_app_log.reconcile now (fact_app_log.insert [row] table)) ∧
    fact_app_log.code row = 0.
Proof.
  destruct (missing_fields_fall_back example_parseDateTime example_parseJson
              1704067200100
              {| JSONEachRow.ts := None; JSONEachRow.level := None;
                 JSONEachRow.env := None; JSONEachRow.app := None;
                 JSONEachRow.host := Some "h1"; JSONEachRow.code := None;
                 JSONEachRow.message := Some "started";
                 JSONEachRow.attrs := None; JSONEachRow._topic := None;
                 JSONEachRow._offset := None; JSONEachRow._partition := None;
                 JSONEachRow._timestamp := None |}
              "app_logs.prod" 3%N 10%N new_year)
    as (row & Hrow & Hts & Hgone & Hcode); [vm_compute; reflexivity|].
  exists row. split_and!; [exact Hrow|exact (Hts eq_refl)|
    exact (Hgone eq_refl eq_refl)|exact (Hcode eq_refl)].
Defined.

(** ** The admin server: the body reader *)

Section ReaderFacts.
Import main_go.

Lemma Read_empty r p : b r = [] → Read r p = (r, p, (0%nat, Some EOF)).
Proof. intros Hb. unfold Read. by rewrite Hb. Qed.

Lemma Read_nonempty r p :
  b r ≠ [] →
  Read r p
  = ({| b := drop (min (length p) (length (b r))) (b r) |},
     take (min (length p) (length (b r))) (b r)
     ++ drop (min (length p) (length (b r))) p,
     (min (length p) (length (b r)), None)).
Proof.
  intros Hb. unfold Read. rewrite decide_False; [done|].
  by destruct (b r).
Qed.

Lemma read_chunks_app (sizes : list nat) (r : reader) :
  concat (read_chunks sizes r).1 ++ b (read_chunks sizes r).2 = b r.
Proof.
  revert r. induction sizes as [|size sizes IH]; intros r; simpl; [done|].
  destruct (decide (b r = [])) as [Hb|Hb].
  - rewrite (Read_empty r _ Hb). simpl. done.
  - rewrite (Read_nonempty r _ Hb). rewrite length_replicate.
    set (n := min size (length (b r))).
    specialize (IH {| b := drop n (b r) |}).
    destruct (read_chunks sizes {| b := drop n (b r) |}) as [chunks r'].
    simpl in *. rewrite take_app_le by (rewrite length_take; lia).
    rewrite take_take, Nat.min_id, <-app_assoc, IH. apply take_drop.
Qed.

(** X15: nothing is lost or invented between calls of [Read]: the bytes the
    calls delivered, in order, followed by the bytes still in the reader,
    are the bytes the reader was made of. *)
Theorem read_chunks_partition (sizes : list nat) (r : reader) :
  concat (read_chunks sizes r).1 ++ b (read_chunks sizes r).2 = b r.
Proof. apply read_chunks_app. Qed.

Lemma read_chunks_drains_aux (sizes : list nat) (r : reader) :
  Forall (λ size, 0 < size)%nat sizes → (length (b r) ≤ length sizes)%nat →
  b (read_chunks sizes r).2 = [].
Proof.
  revert r. induction sizes as [|size sizes IH]; intros r Hpos Hlen; simpl in *.
  { apply nil_length_inv. lia. }
  apply Forall_cons in Hpos as [Hsize Hpos].
  destruct (decide (b r = [])) as [Hb|Hb].
  - by rewrite (Read_empty r _ Hb).
  - rewrite (Read_nonempty r _ Hb). rewrite length_replicate.
    set (n := min size (length (b r))).
    assert (0 < length (b r))%nat by (destruct (b r); simpl; [done|lia]).
    specialize (IH {| b := drop n (b r) |} Hpos).
    destruct (read_chunks sizes {| b := drop n (b r) |}) as [chunks r'].
    simpl in *. apply IH. rewrite length_drop. lia.
Qed.

(** X16: a consumer whose buffers are not empty gets the whole body: after as
    many calls as the body has bytes, or more, the reader is empty and the
    bytes delivered are exactly the bytes given to [bytesReader]. *)
Theorem read_chunks_drains (sizes : list nat) (bs : list byte) :
  Forall (λ size, 0 < size)%nat sizes → (length bs ≤ length sizes)%nat →
  concat (read_chunks sizes (bytesReader bs)).1 = bs ∧
  Read (read_chunks sizes (bytesReader bs)).2 (replicate 1 Byte.x00)
  = ((read_chunks sizes (bytesReader bs)).2, replicate 1 Byte.x00,
     (0%nat, Some EOF)).
Proof.
  intros Hpos Hlen.
  pose proof (read_chunks_drains_aux sizes (bytesReader bs) Hpos Hlen) as Hnil.
  pose proof (read_chunks_app sizes (bytesReader bs)) as Hpart.
  rewrite Hnil, app_nil_r in Hpart. split; [done|]. by apply Read_empty.
Qed.

Lemma read_chunks_drains_witness :
  concat (read_chunks [2; 2; 2; 2]%nat (bytesReader [Byte.x61; Byte.x62; Byte.x63])).1
  = [Byte.x61; Byte.x62; Byte.x63] ∧
  Read (read_chunks [2; 2; 2; 2]%nat
          (bytesReader [Byte.x61; Byte.x62; Byte.x63])).2
    (replicate 1 Byte.x00)
  = ((read_chunks [2; 2; 2; 2]%nat
        (bytesReader [Byte.x61; Byte.x62; Byte.x63])).2,
     replicate 1 Byte.x00, (0%nat, Some EOF)).
Proof.
  apply (read_chunks_drains [2; 2; 2; 2]%nat [Byte.x61; Byte.x62; Byte.x63]).
  - repeat constructor.
  - simpl. lia.
Defined.

(** A buffer of length zero gets nothing from a reader that has bytes, and no
    error either. *)
Example Read_zero_buffer (r : reader) :
  b r ≠ [] → Read r [] = (r, [], (0%nat, None)).
Proof. intros Hb. rewrite (Read_nonempty r [] Hb). simpl. by destruct r. Qed.

End ReaderFacts.

(** ** The admin server: the status recorder *)

Section RecorderFacts.
Import main_go.
Context {W : Type} `{!ResponseWriter W}.

Lemma wrap_int_range z : - 2 ^ 63 ≤ wrap_int z < 2 ^ 63.
Proof. unfold wrap_int. pose proof (Z.mod_pos_bound (z + 2 ^ 63) (2 ^ 64)). lia. Qed.

Lemma wrap_int_id z : - 2 ^ 63 ≤ z < 2 ^ 63 → wrap_int z = z.
Proof. intros Hz. unfold wrap_int. rewrite Z.mod_small; lia. Qed.

Lemma wrap_int_add a n : wrap_int (wrap_int a + n) = wrap_int (a + n).
Proof.
  unfold wrap_int.
  replace ((a + 2 ^ 63) `mod` 2 ^ 64 - 2 ^ 63 + n + 2 ^ 63)
    with ((a + 2 ^ 63) `mod` 2 ^ 64 + n) by lia.
  replace (a + n + 2 ^ 63) with (a + 2 ^ 63 + n) by lia.
  by rewrite Zplus_mod_idemp_l.
Qed.

Lemma do_calls_cons (c : call) (calls : list call) (w : statusRecorder W) :
  do_calls (c :: calls) w = do_calls calls (do_call c w).
Proof. reflexivity. Qed.

Lemma underlying_do_call (c : call) (w : statusRecorder W) :
  underlying (do_call c w) = do_call c (underlying w).
Proof.
  destruct c as [k v|code|bs]; simpl; [done..|].
  unfold statusRecorder_Write. by destruct (Write bs (underlying w)) as [u [n e]].
Qed.

Lemma bytes_do_call (c : call) (w : statusRecorder W) :
  bytes (do_call c w)
  = match c with
    | CallWrite bs => wrap_int (bytes w + (Write bs (underlying w)).2.1)
    | _ => bytes w
    end.
Proof.
  destruct c as [k v|code|bs]; simpl; [done..|].
  unfold statusRecorder_Write. by destruct (Write bs (underlying w)) as [u [n e]].
Qed.

Lemma status_do_call (c : call) (w : statusRecorder W) :
  status (do_call c w)
  = match c with
    | CallHeaderSet _ _ => status w
    | CallWriteHeader code => code
    | CallWrite _ => if decide (status w = 0) then 200 else status w
    end.
Proof.
  destruct c as [k v|code|bs]; simpl; [done..|].
  unfold statusRecorder_Write. by destruct (Write bs (underlying w)) as [u [n e]].
Qed.

(** X17: the recorder is transparent.  Whatever a handler does to the
    recorder, the writer behind it ends up as if the handler had been given
    that writer. *)
Theorem statusRecorder_transparent (calls : list call) (w : W) :
  underlying (do_calls calls (newStatusRecorder w)) = do_calls calls w.
Proof.
  change w with (underlying (newStatusRecorder w)) at 2.
  generalize (newStatusRecorder w). induction calls as [|c calls IH]; intros sr.
  - done.
  - rewrite do_calls_cons, IH, underlying_do_call. done.
Qed.

Lemma bytes_do_calls (calls : list call) (sr : statusRecorder W) :
  wrap_int (bytes (do_calls calls sr))
  = wrap_int (bytes sr + foldr Z.add 0 (written calls (underlying sr))).
Proof.
  revert sr. induction calls as [|c calls IH]; intros sr.
  - simpl. f_equal. lia.
  - rewrite do_calls_cons, IH, bytes_do_call, underlying_do_call.
    destruct c as [k v|code|bs]; simpl; [done..|].
    rewrite wrap_int_add. f_equal. lia.
Qed.

Lemma bytes_do_calls_range (calls : list call) (sr : statusRecorder W) :
  - 2 ^ 63 ≤ bytes sr < 2 ^ 63 → - 2 ^ 63 ≤ bytes (do_calls calls sr) < 2 ^ 63.
Proof.
  revert sr. induction calls as [|c calls IH]; intros sr Hsr; [done|].
  rewrite do_calls_cons. apply IH. rewrite bytes_do_call.
  destruct c; [done..|apply wrap_int_range].
Qed.

(** X18: the byte count of the recorder is the sum of the counts the writer
    behind it returned for the [Write] calls of the handler, as a 64-bit
    [int]. *)
Theorem statusRecorder_bytes (calls : list call) (w : W) :
  bytes (do_calls calls (newStatusRecorder w))
  = wrap_int (foldr Z.add 0 (written calls w)).
Proof.
  rewrite <-(wrap_int_id (bytes _)) by (by apply bytes_do_calls_range).
  by rewrite bytes_do_calls.
Qed.

Lemma status_no_WriteHeader (calls : list call) (sr : statusRecorder W) :
  existsb is_WriteHeader calls = false →
  status (do_calls calls sr)
  = if existsb is_Write calls
    then (if decide (status sr = 0) then 200 else status sr)
    else status sr.
Proof.
  revert sr. induction calls as [|c calls IH]; intros sr Hwh; [done|].
  simpl in Hwh. apply orb_false_elim in Hwh as [Hc Hwh].
  rewrite do_calls_cons, (IH _ Hwh), status_do_call.
  destruct c as [k v|code|bs]; simpl; [done|done|].
  destruct (decide (status sr = 0)) as [Hz|Hnz].
  - rewrite decide_False by done. by destruct (existsb is_Write calls).
  - rewrite (decide_False (P:=status sr = 0)) by done.
    by destruct (existsb is_Write calls).
Qed.

(** X19: a handler that never calls [WriteHeader] is recorded with status 200
    if it wrote anything, and with status 0 if it did not. *)
Theorem statusRecorder_default_status (calls : list call) (w : W) :
  existsb is_WriteHeader calls = false →
  status (do_calls calls (newStatusRecorder w))
  = if existsb is_Write calls then 200 else 0.
Proof. intros Hwh. by rewrite status_no_WriteHeader. Qed.

(** X20: the recorded status is the code of the last [WriteHeader] call,
    also when the body had been started before it. *)
Theorem statusRecorder_last_WriteHeader (before after : list call) (code : Z) (w : W) :
  code ≠ 0 → existsb is_WriteHeader after = false →
  status (do_calls (before ++ CallWriteHeader code :: after) (newStatusRecorder w))
  = code.
Proof.
  intros Hcode Hwh. unfold do_calls. rewrite foldl_app. simpl.
  fold (do_calls before (newStatusRecorder w)).
  set (sr := statusRecorder_WriteHeader code _).
  fold (do_calls after sr). rewrite status_no_WriteHeader by done.
  simpl. rewrite decide_False by done. by destruct (existsb is_Write after).
Qed.

End RecorderFacts.

Lemma statusRecorder_default_status_witness :
  main_go.status
    (main_go.do_calls
       [main_go.CallHeaderSet "Content-Type" "application/json";
        main_go.CallWrite [Byte.x7b; Byte.x7d]]
       (main_go.newStatusRecorder example_captureWriter))
  = 200.
Proof.
  apply (statusRecorder_default_status
           [main_go.CallHeaderSet "Content-Type" "application/json";
            main_go.CallWrite [Byte.x7b; Byte.x7d]] example_captureWriter).
  reflexivity.
Defined.

Lemma statusRecorder_last_WriteHeader_witness :
  main_go.status
    (main_go.do_calls
       ([main_go.CallWrite [Byte.x7b]]
        ++ main_go.CallWriteHeader 500 :: [main_go.CallWrite [Byte.x7d]])
       (main_go.newStatusRecorder example_captureWriter))
  = 500.
Proof.
  apply (statusRecorder_last_WriteHeader [main_go.CallWrite [Byte.x7b]]
           [main_go.CallWrite [Byte.x7d]] 500 example_captureWriter).
  - done.
  - reflexivity.
Defined.

(** With the capture writer behind it the recorder counts the bytes of the
    bodies written. *)
Example statusRecorder_counts_body :
  main_go.bytes
    (main_go.do_calls
       [main_go.CallWrite [Byte.x7b]; main_go.CallWriteHeader 500;
        main_go.CallWrite [Byte.x7d; Byte.x0a]]
       (main_go.newStatusRecorder example_captureWriter))
  = 3.
Proof. reflexivity. Qed.

(** ** The admin server: the address of the client *)

Section ClientIPFacts.
Import main_go.
Context (TrimSpace : string → string).

Lemma LastIndex_no_sep (s : string) (sep : Ascii.ascii) :
  contains sep s = false → LastIndex s sep = None.
Proof.
  induction s as [|c s IH]; simpl; [done|].
  intros [Hc Hs]%orb_false_elim. rewrite (IH Hs).
  apply bool_decide_eq_false in Hc. by rewrite decide_False.
Qed.

Lemma LastIndex_app_sep (host port : string) (sep : Ascii.ascii) :
  contains sep port = false →
  LastIndex (host +:+ String sep port) sep = Some (String.length host).
Proof.
  intros Hport. induction host as [|c host IH].
  - change (LastIndex (String sep port) sep = Some 0%nat). simpl.
    rewrite (LastIndex_no_sep port sep Hport). by rewrite decide_True.
  - change (LastIndex (String c (host +:+ String sep port)) sep
            = Some (S (String.length host))).
    simpl. by rewrite IH.
Qed.

Lemma slice_to_app (host rest : string) :
  slice_to (host +:+ rest) (String.length host) = host.
Proof.
  induction host as [|c host IH].
  - change (slice_to rest 0 = ""). by destruct rest.
  - change (String c (slice_to (host +:+ rest) (String.length host))
            = String c host). by rewrite IH.
Qed.

Lemma Split_head (first rest : string) (sep : Ascii.ascii) :
  contains sep first = false →
  head (Split (first +:+ String sep rest) sep) = Some first.
Proof.
  induction first as [|c first IH]; intros Hc.
  - change (head (Split (String sep rest) sep) = Some "").
    simpl. by rewrite decide_True.
  - change (head (Split (String c (first +:+ String sep rest)) sep)
            = Some (String c first)).
    simpl in *. apply orb_false_elim in Hc as [Hc Hfirst].
    apply bool_decide_eq_false in Hc. rewrite decide_False by done.
    specialize (IH Hfirst).
    destruct (Split (first +:+ String sep rest) sep); simplify_eq/=; done.
Qed.

Lemma Split_no_sep (s : string) (sep : Ascii.ascii) :
  contains sep s = false → Split s sep = [s].
Proof.
  induction s as [|c s IH]; simpl; [done|].
  intros [Hc Hs]%orb_false_elim. apply bool_decide_eq_false in Hc.
  by rewrite decide_False, (IH Hs) by done.
Qed.

(** X21: without an [X-Forwarded-For] header the address is the remote
    address without its port: what precedes the last colon.  A remote
    address ["host:port"] gives ["host"], and one without a colon is given
    back as it is. *)
Theorem clientIP_of_RemoteAddr (r : Request) (host port : string) :
  Get (RequestHeader r) "X-Forwarded-For" = "" →
  contains ":" port = false →
  RemoteAddr r = host +:+ ":" +:+ port ∨ (RemoteAddr r = port ∧ host = port) →
  clientIP TrimSpace r = host.
Proof.
  intros Hxff Hport Haddr. unfold clientIP. rewrite Hxff.
  rewrite decide_False by (intros Hne; by apply Hne).
  destruct Haddr as [->|[-> ->]].
  - change (host +:+ ":" +:+ port) with (host +:+ String ":" port).
    rewrite LastIndex_app_sep by done. apply slice_to_app.
  - by rewrite LastIndex_no_sep.
Qed.

(** X22: with an [X-Forwarded-For] header the remote address is not looked
    at: the address is the trimmed first entry of the header, i.e. the
    text before its first comma, or all of it if it has no comma. *)
Theorem clientIP_of_forwarded_for (r : Request) (first rest : string) :
  contains "," first = false →
  Get (RequestHeader r) "X-Forwarded-For" = first +:+ "," +:+ rest ∨
  (first ≠ "" ∧ Get (RequestHeader r) "X-Forwarded-For" = first) →
  clientIP TrimSpace r = TrimSpace first.
Proof.
  intros Hfirst Hxff. unfold clientIP.
  destruct Hxff as [->|[Hne ->]].
  - change (first +:+ "," +:+ rest) with (first +:+ String "," rest).
    rewrite decide_True by (by destruct first).
    by rewrite Split_head.
  - rewrite decide_True by done. by rewrite Split_no_sep.
Qed.

End ClientIPFacts.

Lemma clientIP_of_RemoteAddr_witness :
  main_go.clientIP (λ s, s)
    {| main_go.RequestHeader := {[ "User-Agent" := ["curl/8.0"] ]};
       main_go.RemoteAddr := "[::1]:52114" |}
  = "[::1]".
Proof.
  apply (clientIP_of_RemoteAddr (λ s, s) _ "[::1]" "52114").
  - vm_compute. reflexivity.
  - vm_compute. reflexivity.
  - left. reflexivity.
Defined.

Lemma clientIP_of_forwarded_for_witness :
  main_go.clientIP (λ s, s)
    {| main_go.RequestHeader :=
         {[ "X-Forwarded-For" := ["203.0.113.7, 10.0.0.1"] ]};
       main_go.RemoteAddr := "10.0.0.1:52114" |}
  = "203.0.113.7".
Proof.
  apply (clientIP_of_forwarded_for (λ s, s) _ "203.0.113.7" " 10.0.0.1").
  - vm_compute. reflexivity.
  - left. vm_compute. reflexivity.
Defined.

(** ** The admin page *)

Section PageFacts.
Import log_adm.

Lemma strip_trailing_slashes_slash (s : string) :
  strip_trailing_slashes (s +:+ "/") = strip_trailing_slashes s.
Proof.
  induction s as [|c s IH]; [done|].
  change (strip_trailing_slashes (String c (s +:+ "/"))
          = strip_trailing_slashes (String c s)).
  simpl. by rewrite IH.
Qed.

(** X23: trailing slashes of the base do not matter to [resolveUrl]. *)
Theorem resolveUrl_trailing_slash (base path : string) :
  resolveUrl (Some (base +:+ "/")) path = resolveUrl (Some base) path.
Proof. unfold resolveUrl. simpl. by rewrite strip_trailing_slashes_slash. Qed.

Lemma append_nil_l (s : string) : "" +:+ s = s.
Proof. reflexivity. Qed.

Lemma append_cons (c : Ascii.ascii) (s t : string) :
  String c s +:+ t = String c (s +:+ t).
Proof. reflexivity. Qed.

Lemma strip_trailing_slashes_spec (s : string) :
  (∃ n, s = strip_trailing_slashes s
            +:+ String.string_of_list_ascii (replicate n "/"%char)) ∧
  (∀ t, strip_trailing_slashes s ≠ t +:+ "/").
Proof.
  induction s as [|c s IH].
  - split; [by exists 0%nat|].
    intros [|e t]; rewrite ?append_nil_l, ?append_cons; discriminate.
  - destruct IH as [[n Hn] Hend]. cbn [strip_trailing_slashes].
    destruct (strip_trailing_slashes s) as [|d rest] eqn:E.
    + rewrite append_nil_l in Hn. case_decide as Hc.
      * subst c. split.
        -- exists (S n). rewrite append_nil_l. simpl. by f_equal.
        -- intros [|e t]; rewrite ?append_nil_l, ?append_cons; discriminate.
      * split.
        -- exists n. rewrite append_cons, append_nil_l. by f_equal.
        -- intros [|e t]; rewrite ?append_nil_l, ?append_cons; [congruence|].
           intros [= _ Ht]. destruct t; discriminate Ht.
    + split.
      * exists n. rewrite !append_cons. rewrite append_cons in Hn. by f_equal.
      * intros [|e t]; rewrite ?append_nil_l, ?append_cons; [discriminate|].
        intros [= _ Ht]. by destruct (Hend t).
Qed.

(** X24: what [resolveUrl] puts in front of the path is the base without the
    slashes it ends in: the base is that text followed by slashes only, and
    that text does not end in a slash. *)
Theorem resolveUrl_strips_slashes (base path : string) :
  ∃ (front : string) (n : nat),
    resolveUrl (Some base) path = front +:+ path ∧
    base = front +:+ String.string_of_list_ascii (replicate n "/"%char) ∧
    ∀ t, front ≠ t +:+ "/".
Proof.
  destruct (strip_trailing_slashes_spec base) as [[n Hn] Hend].
  exists (strip_trailing_slashes base), n. done.
Qed.

Lemma push_log_take {A} (entry : A) (l : list A) :
  push_log entry (take MAX_LOGS l) = take MAX_LOGS (entry :: l).
Proof.
  unfold push_log, MAX_LOGS. rewrite !firstn_cons. f_equal.
  rewrite take_take. f_equal.
Qed.

(** X25: the log of the page holds the latest entries, newest first, and at
    most [MAX_LOGS] of them, however many requests were made. *)
Theorem push_log_keeps_latest {A} (entries : list A) :
  foldl (λ logs entry, push_log entry logs) [] entries
  = take MAX_LOGS (reverse entries) ∧
  (length (foldl (λ logs entry, push_log entry logs) [] entries) ≤ MAX_LOGS)%nat.
Proof.
  assert (foldl (λ logs entry, push_log entry logs) [] entries
          = take MAX_LOGS (reverse entries)) as Heq.
  { induction entries as [|e entries IH] using rev_ind; [done|].
    rewrite foldl_app, reverse_app. simpl. rewrite IH. apply push_log_take. }
  split; [done|]. rewrite Heq, length_take. lia.
Qed.

End PageFacts.

(** ** Replays *)

Section EngineReplay.
Import MergeTree.
Context {Row Key Ver Part : Type} `{EqDecision Part}.
Context (sorting_key : Row → Key) (key_cmp : Key → Key → comparison).
Context (version : Row → Ver) (ver_cmp : Ver → Ver → comparison).
Context (partition_by : Row → Part) (expired : Z → Row → bool).
Context `{!Ordered key_cmp} `{!Ordered ver_cmp}.

Abbreviation replace'' := (replace version ver_cmp).
Abbreviation replacing_merge'' := (replacing_merge sorting_key key_cmp version ver_cmp).
Abbreviation survivor'' := (survivor version ver_cmp).
Abbreviation same_key'' := (same_key sorting_key key_cmp).
Abbreviation key_lt'' := (key_lt sorting_key key_cmp).
Abbreviation ver_le'' := (ver_le version ver_cmp).
Abbreviation ver_lt'' := (ver_lt version ver_cmp).
Abbreviation reconcile'' :=
  (reconcile sorting_key key_cmp version ver_cmp partition_by expired).

Abbreviation replays' := (replays sorting_key version ver_cmp partition_by).

Lemma ver_lt_not_le' a r : ver_lt'' r a → ver_le'' a r → False.
Proof.
  unfold MergeTree.ver_lt, MergeTree.ver_le. intros Hlt Hle.
  apply Hle. by apply cmp_gt_lt.
Qed.

Lemma survivor_same_from g a c l :
  (∃ y, y ∈ l ∧ g y = true ∧ ver_le'' a y ∧ ver_le'' c y) →
  survivor'' g (Some a) l = survivor'' g (Some c) l.
Proof.
  revert a c. induction l as [|r l IH]; intros a c (y & Hy & Hgy & Hay & Hcy).
  { by apply elem_of_nil in Hy. }
  simpl. destruct (g r) eqn:Hgr.
  - simpl.
    destruct (replace_cases version ver_cmp a r) as [[Ha Hra]|[Ha Har]];
    destruct (replace_cases version ver_cmp c r) as [[Hc Hrc]|[Hc Hcr]];
      rewrite Ha, Hc; try done.
    + apply elem_of_cons in Hy as [->|Hy].
      * by apply (ver_lt_not_le' a) in Hra.
      * apply IH. eauto 10.
    + apply elem_of_cons in Hy as [->|Hy].
      * by apply (ver_lt_not_le' a) in Hra.
      * apply IH. exists y. split_and!; try done.
        eapply ver_le_trans; [done|apply ver_lt_le, Hra|done].
    + apply elem_of_cons in Hy as [->|Hy].
      * by apply (ver_lt_not_le' c) in Hrc.
      * apply IH. exists y. split_and!; try done.
        eapply ver_le_trans; [done|apply ver_lt_le, Hrc|done].
  - apply elem_of_cons in Hy as [->|Hy]; [congruence|]. apply IH. eauto 10.
Qed.

Lemma survivor_dominated g z l :
  (∃ y, y ∈ l ∧ g y = true ∧ ver_le'' z y) →
  survivor'' g (Some z) l = survivor'' g None l.
Proof.
  induction l as [|r l IH]; intros (y & Hy & Hgy & Hzy).
  { by apply elem_of_nil in Hy. }
  simpl. destruct (g r) eqn:Hgr.
  - simpl. destruct (replace_cases version ver_cmp z r) as [[Hz Hrz]|[Hz Hzr]];
      rewrite Hz; [|done].
    apply elem_of_cons in Hy as [->|Hy].
    + by apply (ver_lt_not_le' z) in Hrz.
    + apply survivor_same_from. exists y. split_and!; try done.
      eapply ver_le_trans; [done|apply ver_lt_le, Hrz|done].
  - apply elem_of_cons in Hy as [->|Hy]; [congruence|]. apply IH. eauto.
Qed.

Lemma survivor_None_inv g sel l : survivor'' g sel l = None → sel = None.
Proof.
  intros Hs. destruct sel as [s|]; [|done].
  destruct (survivor_is_Some version ver_cmp g (Some s) l) as [x Hx]; [eauto|].
  congruence.
Qed.

(** Rows that are replayed later do not count. *)
Lemma survivor_replayed g sel l1 l2 :
  (∀ x, x ∈ l1 → g x = true → ∃ y, y ∈ l2 ∧ g y = true ∧ ver_le'' x y) →
  survivor'' g (survivor'' g sel l1) l2 = survivor'' g sel l2.
Proof.
  intros Hrep. destruct (survivor'' g sel l1) as [x|] eqn:E.
  - apply survivor_spec in E as [[-> _]|(la & lb & -> & Hgx & Hsel & _)];
      [done| |done].
    destruct (Hrep x) as (y & Hy & Hgy & Hxy); [|done|].
    { rewrite elem_of_app, elem_of_cons. auto. }
    rewrite survivor_dominated by eauto.
    destruct sel as [s|]; [|done]. symmetry. apply survivor_dominated.
    exists y. split_and!; try done.
    eapply ver_le_trans; [done|by apply Hsel|done].
  - by apply survivor_None_inv in E as ->.
Qed.

Lemma replacing_merge_replayed (l0 l1 l2 : list Row) :
  (∀ x, x ∈ l1 → ∃ y, y ∈ l2 ∧ sorting_key y = sorting_key x ∧ ver_le'' x y) →
  replacing_merge'' (l0 ++ l1 ++ l2) = replacing_merge'' (l0 ++ l2).
Proof.
  intros Hrep. apply (StronglySorted_unique_strong key_lt'').
  - intros x1 x2 _ _ H12 H21. unfold MergeTree.key_lt in *.
    pose proof (cmp_trans _ _ _ H12 H21) as Hbad. by rewrite cmp_refl in Hbad.
  - apply (replacing_merge_sorted sorting_key key_cmp version ver_cmp).
  - apply (replacing_merge_sorted sorting_key key_cmp version ver_cmp).
  - apply NoDup_Permutation.
    + apply (sorted_NoDup sorting_key key_cmp).
      apply (replacing_merge_sorted sorting_key key_cmp version ver_cmp).
    + apply (sorted_NoDup sorting_key key_cmp).
      apply (replacing_merge_sorted sorting_key key_cmp version ver_cmp).
    + intros x. rewrite !elem_of_replacing_merge by done.
      rewrite !survivor_app. rewrite survivor_replayed; [done|].
      intros z Hz Hgz. destruct (Hrep z Hz) as (y & Hy & Hky & Hzy).
      exists y. split_and!; [done| |done].
      apply same_key_true in Hgz; [|done]. apply same_key_true; [done|congruence].
Qed.

Lemma remove_dups_replayed {A} `{EqDecision A} (l0 l1 l2 : list A) :
  (∀ x, x ∈ l1 → x ∈ l2) →
  remove_dups (l0 ++ l1 ++ l2) = remove_dups (l0 ++ l2).
Proof.
  intros Hsub.
  assert (∀ x, x ∈ l1 ++ l2 ↔ x ∈ l2) as Hl12.
  { intros x. rewrite elem_of_app. split; [intros [?|?]; auto|auto]. }
  assert (remove_dups (l1 ++ l2) = remove_dups l2) as H12.
  { clear Hl12. induction l1 as [|x l1 IH]; [done|].
    rewrite <-app_comm_cons, remove_dups_cons.
    rewrite decide_True.
    - apply IH. intros y Hy. apply Hsub. by right.
    - apply elem_of_app. right. apply Hsub. left. }
  induction l0 as [|x l0 IH]; [done|].
  rewrite <-!app_comm_cons, !remove_dups_cons, IH.
  destruct (decide (x ∈ l0 ++ l1 ++ l2)) as [Hin|Hnin].
  - rewrite decide_True; [done|].
    rewrite elem_of_app in Hin |- *. rewrite Hl12 in Hin. done.
  - rewrite decide_False; [done|].
    rewrite elem_of_app in Hnin |- *. rewrite Hl12 in Hnin. done.
Qed.

(** Rows that are written again before the pass leave no trace: the pass
    gives what it gives without them. *)
Lemma reconcile_replayed now (l0 l1 l2 : list Row) :
  replays' l1 l2 →
  reconcile'' now (l0 ++ l1 ++ l2) = reconcile'' now (l0 ++ l2).
Proof.
  intros Hrep. unfold MergeTree.reconcile.
  assert (partition_ids partition_by (l0 ++ l1 ++ l2)
          = partition_ids partition_by (l0 ++ l2)) as ->.
  { unfold MergeTree.partition_ids. rewrite !fmap_app.
    apply remove_dups_replayed. intros p (x & -> & Hx)%list_elem_of_fmap.
    destruct (Hrep x Hx) as (y & Hy & Hp & _).
    apply list_elem_of_fmap. eauto. }
  apply bind_ext_list. intros p.
  unfold MergeTree.merge_partition, MergeTree.partition_rows.
  rewrite !filter_app. f_equal. apply replacing_merge_replayed.
  intros x [Hpx Hx]%list_elem_of_filter.
  destruct (Hrep x Hx) as (y & Hy & Hp & Hk & Hxy).
  exists y. split_and!; [|done..]. apply list_elem_of_filter. split; congruence.
Qed.

End EngineReplay.

Section ReplayFacts.
Import ClickHouse fact_app_log.
Context (parseDate : string → option DateTime) (parseJson : string → option JSON).

(** X26: a block of messages that is delivered again before the pass leaves
    no trace of its first delivery: the pass gives the very table it gives
    when only the second delivery was written, whatever the table held
    before and whatever the two deliveries' clocks were. *)
Theorem redelivered_block_is_absorbed (now : DateTime) (table : list row)
    (clock1 clock2 : DateTime64) (block : list src_kafka_app_logs.row) :
  reconcile now
    (insert (mv_app_logs_consume parseDate parseJson clock2 block)
       (insert (mv_app_logs_consume parseDate parseJson clock1 block) table))
  = reconcile now
      (insert (mv_app_logs_consume parseDate parseJson clock2 block) table).
Proof.
  unfold insert, reconcile. rewrite <-app_assoc.
  apply reconcile_replayed; [apply _..|].
  rewrite !mv_app_logs_consume_map.
  intros x (msg & -> & Hmsg)%list_elem_of_fmap.
  exists (mv_select parseDate parseJson clock2 msg). split_and!.
  - apply list_elem_of_fmap. eauto.
  - done.
  - done.
  - unfold MergeTree.ver_le, version, ver_cmp. simpl.
    by rewrite string_compare_refl.
Qed.

End ReplayFacts.

(** ** Partitions and calendar days *)

Section Calendar.
Import ClickHouse.

Ltac div_lia := Z.div_mod_to_equations; lia.

Lemma civil_from_days_bounds (days : Z) :
  1 ≤ (civil_from_days days).1.2 ≤ 12 ∧ 1 ≤ (civil_from_days days).2 ≤ 31.
Proof.
  unfold civil_from_days. cbv zeta.
  set (z := days + 719468). set (era := z `div` 146097).
  set (doe := z - era * 146097).
  assert (0 ≤ doe ≤ 146096) by (subst doe era; div_lia).
  clearbody doe. clearbody era. clear z.
  set (yoe := (doe - doe `div` 1460 + doe `div` 36524 - doe `div` 146096) `div` 365).
  assert (0 ≤ yoe ≤ 399) by (subst yoe; div_lia).
  set (doy := doe - (365 * yoe + yoe `div` 4 - yoe `div` 100)).
  assert (0 ≤ doy ≤ 365) by (subst doy yoe; div_lia).
  clearbody doy.
  set (mp := (5 * doy + 2) `div` 153).
  assert (0 ≤ mp ≤ 11) by (subst mp; div_lia).
  cbn [fst snd]. case_decide; subst mp; split; div_lia.
Qed.

Lemma days_from_civil_from_days (days : Z) :
  days_from_civil (civil_from_days days).1.1 (civil_from_days days).1.2
    (civil_from_days days).2 = days.
Proof.
  unfold civil_from_days, days_from_civil. cbv zeta. cbn [fst snd].
  set (z := days + 719468). set (era := z `div` 146097).
  set (doe := z - era * 146097).
  assert (0 ≤ doe ≤ 146096) by (subst doe era; div_lia).
  assert (days = era * 146097 + doe - 719468) as Hd by (subst doe z; lia).
  clearbody doe. clearbody era. clear z.
  set (yoe := (doe - doe `div` 1460 + doe `div` 36524 - doe `div` 146096) `div` 365).
  assert (0 ≤ yoe ≤ 399) by (subst yoe; div_lia).
  set (doy := doe - (365 * yoe + yoe `div` 4 - yoe `div` 100)).
  assert (0 ≤ doy ≤ 365) by (subst doy yoe; div_lia).
  assert (doe = yoe * 365 + yoe `div` 4 - yoe `div` 100 + doy) as Hdoe
    by (subst doy; lia).
  clearbody doy. clearbody yoe.
  set (mp := (5 * doy + 2) `div` 153).
  assert (0 ≤ mp ≤ 11) by (subst mp; div_lia).
  assert (doy = (153 * mp + 2) `div` 5 + (doy - (153 * mp + 2) `div` 5 + 1) - 1)
    as Hdoy by lia.
  clearbody mp.
  destruct (decide (mp < 10)).
  - destruct (decide (mp + 3 ≤ 2)); [lia|].
    destruct (decide (2 < mp + 3)); [|lia].
    replace (mp + 3 - 3) with mp by lia.
    replace ((yoe + era * 400 + 0) `div` 400) with era by div_lia.
    replace (yoe + era * 400 + 0 - era * 400) with yoe by lia. lia.
  - destruct (decide (mp - 9 ≤ 2)); [|lia].
    destruct (decide (2 < mp - 9)); [lia|].
    replace (mp - 9 + 9) with mp by lia.
    replace (yoe + era * 400 + 1 - 1) with (yoe + era * 400) by lia.
    replace ((yoe + era * 400) `div` 400) with era by div_lia.
    replace (yoe + era * 400 - era * 400) with yoe by lia. lia.
Qed.

Lemma toYYYYMMDD_toDate (t1 t2 : DateTime64) :
  toYYYYMMDD t1 = toYYYYMMDD t2 → toDate t1 = toDate t2.
Proof.
  unfold toYYYYMMDD. intros Heq.
  rewrite <-(days_from_civil_from_days (toDate t1)),
    <-(days_from_civil_from_days (toDate t2)).
  pose proof (civil_from_days_bounds (toDate t1)) as [Hm1 Hd1].
  pose proof (civil_from_days_bounds (toDate t2)) as [Hm2 Hd2].
  destruct (civil_from_days (toDate t1)) as [[y1 m1] d1].
  destruct (civil_from_days (toDate t2)) as [[y2 m2] d2].
  simpl in *. assert (y1 = y2 ∧ m1 = m2 ∧ d1 = d2) as (-> & -> & ->) by lia.
  done.
Qed.

(** X27: the partitions of the fact table are calendar days.  For rows with
    timestamps from 1992-01-01 to 2149-06-06, Shanghai time, the [date]
    fits the sixteen bits of its column, two rows are in the same partition
    exactly when their [date] is the same, and the partition id [YYYYMMDD]
    has a month between 1 and 12 and a day between 1 and 31. *)
Theorem partitions_are_calendar_days (r1 r2 : fact_app_log.row) :
  plain_days (fact_app_log.ts r1) → plain_days (fact_app_log.ts r2) →
  0 ≤ fact_app_log.date r1 < 2 ^ 16 ∧
  (fact_app_log.partition_by r1 = fact_app_log.partition_by r2 ↔
   fact_app_log.date r1 = fact_app_log.date r2) ∧
  1 ≤ (fact_app_log.partition_by r1 `div` 100) `mod` 100 ≤ 12 ∧
  1 ≤ fact_app_log.partition_by r1 `mod` 100 ≤ 31.
Proof.
  unfold plain_days, fact_app_log.partition_by, fact_app_log.date.
  intros H1 H2. split; [|split].
  - unfold toDate, toDateTime, shanghai_offset. div_lia.
  - split; [apply toYYYYMMDD_toDate|]. unfold toYYYYMMDD. by intros ->.
  - unfold toYYYYMMDD.
    pose proof (civil_from_days_bounds (toDate (fact_app_log.ts r1))) as [Hm Hd].
    destruct (civil_from_days (toDate (fact_app_log.ts r1))) as [[y m] d].
    simpl in *. div_lia.
Qed.

End Calendar.

Lemma partitions_are_calendar_days_witness :
  0 ≤ fact_app_log.date (example_row 1704067200000 "3-10" 1704067200100) < 2 ^ 16 ∧
  (fact_app_log.partition_by (example_row 1704067200000 "3-10" 1704067200100)
   = fact_app_log.partition_by (example_row 1704067199999 "3-9" 1704067200100) ↔
   fact_app_log.date (example_row 1704067200000 "3-10" 1704067200100)
   = fact_app_log.date (example_row 1704067199999 "3-9" 1704067200100)) ∧
  1 ≤ (fact_app_log.partition_by (example_row 1704067200000 "3-10" 1704067200100)
       `div` 100) `mod` 100 ≤ 12 ∧
  1 ≤ fact_app_log.partition_by (example_row 1704067200000 "3-10" 1704067200100)
      `mod` 100 ≤ 31.
Proof.
  apply (partitions_are_calendar_days
           (example_row 1704067200000 "3-10" 1704067200100)
           (example_row 1704067199999 "3-9" 1704067200100));
    unfold plain_days; simpl; lia.
Defined.

(** ** The capture writer *)

Section CaptureFacts.
Import main_go.
Variable StatusText : Z → string.

#[local] Instance capture_ResponseWriter : ResponseWriter captureWriter :=
  captureWriter_ResponseWriter StatusText.

(** X28: the capture writer collects what a handler sends.  Its body is the
    body it had followed by everything written, in order; every [Write]
    reports the length of what it was given; the status is the code of the
    last [WriteHeader], with no default when there was none, and the status
    text is the text of that code. *)
Theorem captureWriter_collects (calls : list call) (c : captureWriter) :
  body (do_calls calls c) = body c ++ concat (payloads calls) ∧
  written calls c = (λ bs, Z.of_nat (length bs)) <$> payloads calls ∧
  cw_status (do_calls calls c) = default (cw_status c) (last (codes calls)) ∧
  statusText (do_calls calls c)
  = default (statusText c) (StatusText <$> last (codes calls)).
Proof.
  revert c. induction calls as [|a calls IH]; intros c.
  - simpl. by rewrite app_nil_r.
  - unfold do_calls in *. simpl foldl.
    destruct (IH (do_call a c)) as (Hb & Hw & Hs & Ht).
    rewrite Hb, Hs, Ht. clear Hb Hs Ht.
    destruct a as [k v|code|bs]; simpl in Hw |- *; rewrite Hw.
    + done.
    + change (codes (CallWriteHeader code :: calls)) with (code :: codes calls).
      rewrite !last_cons. by destruct (last (codes calls)).
    + change (payloads (CallWrite bs :: calls)) with (bs :: payloads calls).
      simpl. by rewrite <-(assoc_L (++)).
Qed.

End CaptureFacts.
